(** * Deadline Tracker: the reminder engine

    A shallow embedding of the two programs of the repository that create
    and consume reminders:

    - [deadlines/tasks.py], the periodic task [send_due_reminders];
    - [core/management/commands/import_deadlines.py], the CSV import
      command [Command.handle];

    over the tables declared in [core/models.py].

    Modelling conventions.
    - A database table is a finite map from primary key to row.  The
      automatic columns [created_at], [updated_at] and [added_at], and the
      [Attachment] table, are read by neither program and are left out.
      The [max_length] of the text columns, which the default SQLite
      backend does not enforce, is left out as well.
    - A [datetime] is its position, in microseconds, on the wall-clock time
      line that starts at 0001-01-01 00:00 (Python's [datetime.min]); this
      is the line on which Python's [datetime - timedelta] computes.  The
      offset to UTC of the configured time zone is not modelled.
    - Python strings are modelled by Rocq strings, one character per code
      point below 256.
    - An exception that leaves a function is a value of the function's
      outcome type; the database reached so far is returned next to it,
      since neither program opens a transaction. *)

From Stdlib Require Import ZArith String Ascii.
From stdpp Require Import base option list sorting gmap strings list_numbers
  pretty.

Local Open Scope string_scope.
Local Open Scope list_scope.
Local Open Scope Z_scope.

(** ** Python built-ins used by the import command *)

Module Py.

(** [str.isspace] on one character, code points below 256. *)
Definition is_space (c : ascii) : bool :=
  let n := nat_of_ascii c in
  (Nat.leb 9 n && Nat.leb n 13) || (Nat.leb 28 n && Nat.leb n 32)
  || Nat.eqb n 133 || Nat.eqb n 160.

Fixpoint lstrip (s : string) : string :=
  match s with
  | String c s' => if is_space c then lstrip s' else s
  | EmptyString => EmptyString
  end.

Definition rstrip (s : string) : string :=
  String.rev (lstrip (String.rev s)).

(** [s.strip()] *)
Definition strip (s : string) : string := rstrip (lstrip s).

(** [s.split(sep)] for a one-character separator. *)
Fixpoint split (sep : ascii) (s : string) : list string :=
  match s with
  | EmptyString => [EmptyString]
  | String c s' =>
      if Ascii.eqb c sep then EmptyString :: split sep s'
      else match split sep s' with
           | h :: t => String c h :: t
           | [] => [String c EmptyString]
           end
  end.

(** Truth value of a string: [bool(s)]. *)
Definition truthy (s : string) : bool :=
  match s with EmptyString => false | _ => true end.

Definition digit_of (c : ascii) : option Z :=
  let n := nat_of_ascii c in
  if Nat.leb 48 n && Nat.leb n 57 then Some (Z.of_nat n - 48) else None.

(** The digit part of an [int] literal read by [int(s)]: decimal digits,
    single underscores allowed between two digits.  [after_digit] tells
    whether the previous character was a digit. *)
Fixpoint digits_value (s : string) (acc : Z) (after_digit : bool) : option Z :=
  match s with
  | EmptyString => if after_digit then Some acc else None
  | String c s' =>
      match digit_of c with
      | Some d => digits_value s' (10 * acc + d) true
      | None =>
          if Ascii.eqb c "_" && after_digit
          then match s' with
               | EmptyString => None
               | String c' _ =>
                   if digit_of c' is Some _ then digits_value s' acc false
                   else None
               end
          else None
      end
  end.

(** [int(s)] in base ten; [None] stands for [ValueError].  The limit that
    recent versions of Python put on the number of digits is not modelled. *)
Definition int (s : string) : option Z :=
  match strip s with
  | String c ds =>
      if Ascii.eqb c "-" then Z.opp <$> digits_value ds 0 false
      else if Ascii.eqb c "+" then digits_value ds 0 false
      else digits_value (String c ds) 0 false
  | EmptyString => None
  end.

(** *** [datetime] and [timedelta] *)

Definition US_PER_MINUTE : Z := 60 * 1000000.
Definition US_PER_DAY : Z := 86400 * 1000000.
(** [datetime.max.toordinal()] *)
Definition MAXORDINAL : Z := 3652059.

Definition is_leap (y : Z) : bool :=
  (y mod 4 =? 0) && (negb (y mod 100 =? 0) || (y mod 400 =? 0)).

Definition days_before_year (y : Z) : Z :=
  let y1 := y - 1 in y1 * 365 + y1 / 4 - y1 / 100 + y1 / 400.

Definition days_in_month (y m : Z) : Z :=
  if m =? 2 then (if is_leap y then 29 else 28)
  else if (m =? 4) || (m =? 6) || (m =? 9) || (m =? 11) then 30 else 31.

Fixpoint days_before_month_aux (y : Z) (k : nat) : Z :=
  match k with
  | O => 0
  | S k' => days_before_month_aux y k' + days_in_month y (Z.of_nat k)
  end.

Definition days_before_month (y m : Z) : Z :=
  days_before_month_aux y (Z.to_nat (m - 1)).

(** [date(y, m, d).toordinal()] *)
Definition ymd2ord (y m d : Z) : Z :=
  days_before_year y + days_before_month y m + d.

(** [datetime(y, m, d, hh, mm)] as microseconds since [datetime.min]. *)
Definition datetime (y m d hh mm : Z) : Z :=
  (ymd2ord y m d - 1) * US_PER_DAY + (hh * 60 + mm) * US_PER_MINUTE.

(** A [datetime] value exists only between [datetime.min] and
    [datetime.max]. *)
Definition datetime_in_range (t : Z) : bool :=
  (0 <=? t) && (t <? MAXORDINAL * US_PER_DAY).

(** [timedelta(minutes=m)]: the day count of a [timedelta] is bounded by
    999999999 in absolute value; [None] stands for [OverflowError]. *)
Definition timedelta_minutes (m : Z) : option Z :=
  let days := (m * 60) `div` 86400 in
  if (-999999999 <=? days) && (days <=? 999999999)
  then Some (m * US_PER_MINUTE) else None.

(** [t - delta] on a [datetime]; [None] stands for [OverflowError]. *)
Definition datetime_sub (t delta : Z) : option Z :=
  let r := t - delta in
  if datetime_in_range r then Some r else None.

End Py.

(** ** The tables of [core/models.py] *)

Record User := { username : string; email : string }.

Inductive Status := STATUS_OPEN | STATUS_DONE | STATUS_ARCHIVED.

Record Event := {
  user : nat;                (* foreign key to [User] *)
  title : string;
  description : string;
  due_at : Z;
  status : Status
}.

Record Label := { label_user : nat; name : string; colour : string }.

(** The explicit through table of [Event.labels]. *)
Record EventLabel := { el_event : nat; label : nat }.

Inductive Channel := CHANNEL_EMAIL.

Record Reminder := {
  event : nat;               (* foreign key to [Event] *)
  channel : Channel;
  send_at : Z;
  is_sent : bool;
  sent_at : option Z
}.

Record DB := {
  users : gmap nat User;
  events : gmap nat Event;
  labels : gmap nat Label;
  event_labels : gmap nat EventLabel;
  reminders : gmap nat Reminder
}.

#[global] Instance User_eq_dec : EqDecision User.
Proof. solve_decision. Defined.
#[global] Instance Status_eq_dec : EqDecision Status.
Proof. solve_decision. Defined.
#[global] Instance Event_eq_dec : EqDecision Event.
Proof. solve_decision. Defined.
#[global] Instance Label_eq_dec : EqDecision Label.
Proof. solve_decision. Defined.
#[global] Instance EventLabel_eq_dec : EqDecision EventLabel.
Proof. solve_decision. Defined.
#[global] Instance Channel_eq_dec : EqDecision Channel.
Proof. solve_decision. Defined.
#[global] Instance Reminder_eq_dec : EqDecision Reminder.
Proof. solve_decision. Defined.

(** The key the database gives to the next inserted row: larger than every
    key of the table. *)
Definition next_pk {A} (t : gmap nat A) : nat :=
  S (max_list (map_to_list t).*1).

(** [Model.objects.create(...)]: returns the new key with the table. *)
Definition create {A} (row : A) (t : gmap nat A) : nat * gmap nat A :=
  let pk := next_pk t in (pk, <[pk := row]> t).

(** Every reminder has its event and every event its user (the foreign keys
    are not nullable and cascade on delete). *)
Definition fk_ok (d : DB) : bool :=
  forallb (λ r, bool_decide (is_Some (events d !! event r)))
          (map_to_list (reminders d)).*2
  && forallb (λ e, bool_decide (is_Some (users d !! user e)))
             (map_to_list (events d)).*2.

(** ** [deadlines/tasks.py] *)

(** What [send_mail] is given.  The subject and the body are kept as the
    values that the f-strings of the task format: the title and the due
    moment for the subject, one [BodyLine] per element of [body_lines]. *)
Inductive BodyLine :=
  | Description (text : string)
  | Labels (joined : string)
  | Due (t : Z)
  | EventOwner (who : string).

Record Mail := {
  subject : string * Z;
  body : list BodyLine;
  from_email : string;
  recipient_list : list string
}.

(** [settings.DEFAULT_FROM_EMAIL], at its default. *)
Definition DEFAULT_FROM_EMAIL : string := "deadlines@example.com".

(** The mail backend behind [send_mail(..., fail_silently=False)]: given the
    mails it has delivered so far, it delivers the next one ([true]) or
    raises ([false]). *)
Definition Transport := list Mail → Mail → bool.

Record World := { db : DB; outbox : list Mail }.

Inductive Exn := MailError | DatabaseError.

Inductive Outcome := Returned (sent_count : nat) | Raised (e : Exn).

(** A row of the task's queryset: the reminder with the event and the user
    that [select_related("event", "event__user")] joins to it. *)
Record Candidate := {
  c_pk : nat;
  c_reminder : Reminder;
  c_event : Event;
  c_user : User
}.

#[global] Instance Candidate_eq_dec : EqDecision Candidate.
Proof. solve_decision. Defined.

Definition join (d : DB) (row : nat * Reminder) : option Candidate :=
  e ← events d !! event row.2;
  u ← users d !! user e;
  Some {| c_pk := row.1; c_reminder := row.2; c_event := e; c_user := u |}.

(** [filter(is_sent=False, send_at__lte=now)] *)
Definition is_due (now : Z) (r : Reminder) : Prop :=
  is_sent r = false ∧ send_at r ≤ now.

#[global] Instance is_due_dec now r : Decision (is_due now r) :=
  decide (is_sent r = false ∧ send_at r ≤ now).

(** [order_by("send_at")] *)
Definition by_send_at (a b : Candidate) : Prop :=
  send_at (c_reminder a) ≤ send_at (c_reminder b).

#[global] Instance by_send_at_dec : RelDecision by_send_at :=
  λ a b, decide (send_at (c_reminder a) ≤ send_at (c_reminder b)).

Definition BATCH : nat := 200.

(** The queryset of lines 31-36, evaluated once when the loop starts.  SQL
    leaves the order of rows with equal [send_at] open; the sort used here
    fixes one, and no statement below depends on which. *)
Definition due_reminders (d : DB) (now : Z) : list Candidate :=
  take BATCH
    (merge_sort by_send_at
       (filter (λ c, is_due now (c_reminder c))
          (omap (join d) (map_to_list (reminders d))))).

Definition by_name (a b : Label) : Prop :=
  String.leb (name a) (name b) = true.

#[global] Instance by_name_dec : RelDecision by_name :=
  λ a b, decide (String.leb (name a) (name b) = true).

(** [reminder.event.labels.all()]: the labels joined to the through rows of
    the event, in the order of [Label.Meta.ordering] (by name, compared
    character by character). *)
Definition labels_all (d : DB) (event_pk : nat) : list Label :=
  merge_sort by_name
    (omap (λ el, if decide (el_event el = event_pk)
                 then labels d !! label el else None)
          (map_to_list (event_labels d)).*2).

(** [sep.join(parts)] *)
Fixpoint str_join (sep : string) (parts : list string) : string :=
  match parts with
  | [] => ""
  | [p] => p
  | p :: rest => (p ++ sep ++ str_join sep rest)%string
  end.

(** Lines 43-56: the subject and the body. *)
Definition compose (d : DB) (c : Candidate) : Mail :=
  let joined := str_join ", " (name <$> labels_all d (event (c_reminder c))) in
  let body_lines :=
    [Description (if Py.truthy (description (c_event c))
                   then description (c_event c) else "No description.")]
     ++ (if Py.truthy joined then [Labels joined] else [])
     ++ [Due (due_at (c_event c))]
     ++ [EventOwner (username (c_user c))] in
  {| subject := (title (c_event c), due_at (c_event c));
     body := body_lines;
     from_email := DEFAULT_FROM_EMAIL;
     recipient_list := [email (c_user c)] |}.

Definition mark_sent (now : Z) (r : Reminder) : Reminder :=
  {| event := event r; channel := channel r; send_at := send_at r;
     is_sent := true; sent_at := Some now |}.

(** [reminder.save(update_fields=["is_sent", "sent_at"])]: an UPDATE of the
    two columns of the row with the reminder's key; Django raises
    [DatabaseError] when no row has it. *)
Definition save_sent (now : Z) (pk : nat) (d : DB) : option DB :=
  match reminders d !! pk with
  | Some _ =>
      Some {| users := users d; events := events d; labels := labels d;
              event_labels := event_labels d;
              reminders := alter (mark_sent now) pk (reminders d) |}
  | None => None
  end.

(** The [for] loop of lines 38-67, with [sent_count] as accumulator. *)
Fixpoint send_loop (tr : Transport) (now : Z) (batch : list Candidate)
    (sent_count : nat) (w : World) : Outcome * World :=
  match batch with
  | [] => (Returned sent_count, w)
  | c :: rest =>
      if negb (Py.truthy (email (c_user c)))
      then send_loop tr now rest sent_count w
      else
        let m := compose (db w) c in
        if tr (outbox w) m then
          match save_sent now (c_pk c) (db w) with
          | Some d' =>
              send_loop tr now rest (S sent_count)
                {| db := d'; outbox := outbox w ++ [m] |}
          | None =>
              (Raised DatabaseError,
               {| db := db w; outbox := outbox w ++ [m] |})
          end
        else (Raised MailError, w)
  end.

Definition send_due_reminders (tr : Transport) (now : Z) (w : World)
    : Outcome * World :=
  send_loop tr now (due_reminders (db w) now) 0%nat w.

(** ** [core/management/commands/import_deadlines.py] *)

(** A row of [csv.DictReader]: a dictionary from column name to text. *)
Abbreviation CsvRow := (gmap string string).

(** [(row.get(key) or "").strip()] *)
Definition field (row : CsvRow) (key : string) : string :=
  Py.strip (default "" (row !! key)).

(** The lines that the command writes to stderr, one per rejected row; the
    row number and the offending text are what the f-strings format. *)
Inductive RowError :=
  | MissingTitle (idx : nat)
  | InvalidDueAt (idx : nat) (due_raw : string)
  | InvalidOffsets (idx : nat) (offsets_raw : string).

Definition error_row (e : RowError) : nat :=
  match e with
  | MissingTitle idx | InvalidDueAt idx _ | InvalidOffsets idx _ => idx
  end.

(** An element of [events_to_create]. *)
Record Parsed := {
  p_title : string;
  p_description : string;
  p_due : Z;
  p_offsets : list Z;
  p_label_names : list string
}.

(** The non-blank pieces of a separated list, stripped. *)
Definition pieces (sep : ascii) (raw : string) : list string :=
  Py.strip <$> filter (λ val, Py.truthy (Py.strip val) = true) (Py.split sep raw).

(** Lines 84-91; [None] stands for the [ValueError] of [int]. *)
Definition parse_offsets (offsets_raw : string) : option (list Z) :=
  if Py.truthy offsets_raw then mapM Py.int (pieces "," offsets_raw)
  else Some [].

(** Lines 93-96. *)
Definition parse_labels (labels_raw : string) : list string :=
  if Py.truthy labels_raw then pieces ";" labels_raw else [].

Inductive ImportExn := OverflowError | MultipleObjectsReturned.

Inductive ImportOutcome :=
  | Imported (created : nat)
  | NoUserFound
  | Aborted (stderr : list RowError)
  | Crashed (e : ImportExn).

(** [Model.objects.get(...)] *)
Inductive GetResult := DoesNotExist | Found (pk : nat) | Multiple.

Definition get {A} (P : A → Prop) `{∀ a, Decision (P a)} (t : gmap nat A)
    : GetResult :=
  match filter (λ row : nat * A, P row.2) (map_to_list t) with
  | [] => DoesNotExist
  | [row] => Found row.1
  | _ => Multiple
  end.

Section ReadingLoop.

(** Lines 78-79: [dateutil.parser.parse] followed by [make_aware] when the
    result is naive; [None] when either raises. *)
Variable parse_due : string → option Z.

(** The body of the reading loop, lines 71-97. *)
Definition parse_row (idx : nat) (row : CsvRow) : RowError + Parsed :=
  let title := field row "title" in
  if negb (Py.truthy title) then inl (MissingTitle idx)
  else
    let description := field row "description" in
    let due_raw := field row "due_at" in
    match parse_due due_raw with
    | None => inl (InvalidDueAt idx due_raw)
    | Some due =>
        let offsets_raw := field row "reminders_minutes_before" in
        match parse_offsets offsets_raw with
        | None => inl (InvalidOffsets idx offsets_raw)
        | Some offsets =>
            inr {| p_title := title; p_description := description;
                   p_due := due; p_offsets := offsets;
                   p_label_names := parse_labels (field row "labels") |}
        end
    end.

(** [for idx, row in enumerate(reader, start=2)] *)
Fixpoint read_rows (idx : nat) (rows : list CsvRow)
    (errors : list RowError) (events_to_create : list Parsed)
    : list RowError * list Parsed :=
  match rows with
  | [] => (errors, events_to_create)
  | row :: rest =>
      match parse_row idx row with
      | inl err => read_rows (S idx) rest (errors ++ [err]) events_to_create
      | inr p => read_rows (S idx) rest errors (events_to_create ++ [p])
      end
  end.

End ReadingLoop.

(** *** The writing phase: database state with exceptions *)

Definition M (A : Type) : Type := DB → (ImportExn + A) * DB.

Definition ret {A} (a : A) : M A := λ d, (inr a, d).
Definition raise {A} (e : ImportExn) : M A := λ d, (inl e, d).
Definition bind {A B} (m : M A) (k : A → M B) : M B :=
  λ d, match m d with
       | (inl e, d') => (inl e, d')
       | (inr a, d') => k a d'
       end.

Notation "'let*' x ':=' m 'in' k" := (bind m (λ x, k))
  (at level 10, x name, m at level 100, k at level 200).

Fixpoint for_each {A} (l : list A) (body : A → M unit) : M unit :=
  match l with
  | [] => ret tt
  | x :: l' => let* _ := body x in for_each l' body
  end.

Definition create_event (e : Event) : M nat :=
  λ d, let '(pk, t) := create e (events d) in
       (inr pk, {| users := users d; events := t; labels := labels d;
                   event_labels := event_labels d; reminders := reminders d |}).

Definition create_reminder (r : Reminder) : M nat :=
  λ d, let '(pk, t) := create r (reminders d) in
       (inr pk, {| users := users d; events := events d; labels := labels d;
                   event_labels := event_labels d; reminders := t |}).

(** [Label.objects.get_or_create(user=user, name=name)] *)
Definition get_or_create_label (user_pk : nat) (nm : string) : M nat :=
  λ d, match get (λ l, label_user l = user_pk ∧ name l = nm) (labels d) with
       | Found pk => (inr pk, d)
       | Multiple => (inl MultipleObjectsReturned, d)
       | DoesNotExist =>
           let '(pk, t) :=
             create {| label_user := user_pk; name := nm; colour := "" |}
                    (labels d) in
           (inr pk, {| users := users d; events := events d; labels := t;
                       event_labels := event_labels d;
                       reminders := reminders d |})
       end.

(** [event.labels.add(label)]: a through row is inserted unless the pair is
    already linked. *)
Definition labels_add (event_pk label_pk : nat) : M unit :=
  λ d, let link := {| el_event := event_pk; label := label_pk |} in
       if bool_decide (link ∈ (map_to_list (event_labels d)).*2) then (inr tt, d)
       else
         let '(_, t) := create link (event_labels d) in
         (inr tt, {| users := users d; events := events d; labels := labels d;
                     event_labels := t; reminders := reminders d |}).

(** [due - timedelta(minutes=minutes)] *)
Definition send_at_for (due minutes : Z) : M Z :=
  match Py.timedelta_minutes minutes with
  | None => raise OverflowError
  | Some delta =>
      match Py.datetime_sub due delta with
      | None => raise OverflowError
      | Some t => ret t
      end
  end.

(** The fields of a reminder made by [Reminder.objects.create(event=...,
    channel=..., send_at=...)]; the other two take the defaults of the
    model. *)
Definition new_reminder (event_pk : nat) (t : Z) : Reminder :=
  {| event := event_pk; channel := CHANNEL_EMAIL; send_at := t;
     is_sent := false; sent_at := None |}.

(** The body of the writing loop, lines 105-122. *)
Definition create_one (user_pk : nat) (p : Parsed) : M unit :=
  let* event_pk :=
    create_event {| user := user_pk; title := p_title p;
                    description := p_description p;
                    due_at := p_due p; status := STATUS_OPEN |} in
  let* _ :=
    for_each (p_label_names p) (λ nm,
      let* label_pk := get_or_create_label user_pk nm in
      labels_add event_pk label_pk) in
  for_each (p_offsets p) (λ minutes,
    let* t := send_at_for (p_due p) minutes in
    let* _ := create_reminder (new_reminder event_pk t) in
    ret tt).

(** The writing loop with its counter [created]. *)
Fixpoint create_all (user_pk : nat) (todo : list Parsed) (created : nat)
    : M nat :=
  match todo with
  | [] => ret created
  | p :: rest =>
      let* _ := create_one user_pk p in create_all user_pk rest (S created)
  end.

(** [Command.handle], on the rows that [csv.DictReader] yields. *)
Definition handle (parse_due : string → option Z) (user_email : string)
    (rows : list CsvRow) (d : DB) : ImportOutcome * DB :=
  match get (λ u, email u = user_email) (users d) with
  | DoesNotExist => (NoUserFound, d)
  | Multiple => (Crashed MultipleObjectsReturned, d)
  | Found user_pk =>
      let '(errors, events_to_create) := read_rows parse_due 2 rows [] [] in
      match errors with
      | _ :: _ => (Aborted errors, d)
      | [] =>
          match create_all user_pk events_to_create 0 d with
          | (inl e, d') => (Crashed e, d')
          | (inr created, d') => (Imported created, d')
          end
      end
  end.

(** ** [core/models.py]: attachments *)

(** [attachment_upload_to(instance, filename)], on the key of the event of
    the instance. *)
Definition attachment_upload_to (event_id : nat) (filename : string) : string :=
  "attachments/" +:+ pretty event_id +:+ "/" +:+ filename.

Module Attachment.

(** What [save] reads of the file field: the name, empty when no file is
    set, and the size that the storage reports. *)
Record FieldFile := { file_name : string; file_size : nat }.

Record t := {
  event : nat;
  file : FieldFile;
  mime_type : string;
  size : option nat
}.

(** [not self.size], for a size that is null or a number. *)
Definition size_missing (sz : option nat) : bool :=
  match sz with
  | None | Some O => true
  | Some (S _) => false
  end.

Definition OCTET_STREAM : string := "application/octet-stream".

(** [Attachment.save], lines 118-128, up to the call of [super().save]:
    the instance as it is handed on to be written.  [guess_type] stands for
    the first component of [mimetypes.guess_type]. *)
Definition save (guess_type : string → option string) (self : t) : t :=
  let has_file := Py.truthy (file_name (file self)) in
  let self1 :=
    if has_file && negb (Py.truthy (mime_type self))
    then
      let mime := guess_type (file_name (file self)) in
      {| event := event self; file := file self;
         mime_type := match mime with
                      | Some m => if Py.truthy m then m else OCTET_STREAM
                      | None => OCTET_STREAM
                      end;
         size := size self |}
    else self in
  if has_file && size_missing (size self1)
  then {| event := event self1; file := file self1;
          mime_type := mime_type self1;
          size := Some (file_size (file self1)) |}
  else self1.

End Attachment.

(** ** Vocabulary of the statements *)

(** The rows that the joins of the queryset produce. *)
Definition joined (d : DB) : list Candidate :=
  omap (join d) (map_to_list (reminders d)).

(** The rows the WHERE clause keeps, before ORDER BY and LIMIT. *)
Definition pending (d : DB) (now : Z) : list Candidate :=
  filter (λ c, is_due now (c_reminder c)) (joined d).

(** The candidates that get a mail: those whose user has an address (the
    test of line 41 fails). *)
Definition sendable (c : Candidate) : Prop :=
  Py.truthy (email (c_user c)) = true.

#[global] Instance sendable_dec c : Decision (sendable c) :=
  decide (Py.truthy (email (c_user c)) = true).

(** The backend delivers each mail of [ms] in turn, having delivered
    [delivered] before. *)
Fixpoint accepts (tr : Transport) (delivered ms : list Mail) : bool :=
  match ms with
  | [] => true
  | m :: ms' => tr delivered m && accepts tr (delivered ++ [m]) ms'
  end.

Definition set_reminders (t : gmap nat Reminder) (d : DB) : DB :=
  {| users := users d; events := events d; labels := labels d;
     event_labels := event_labels d; reminders := t |}.

Definition mark_all (now : Z) (l : list Candidate) (t : gmap nat Reminder)
    : gmap nat Reminder :=
  foldl (λ t c, alter (mark_sent now) (c_pk c) t) t l.

(** The mails for the candidates of [l], in order. *)
Definition mails (d : DB) (l : list Candidate) : list Mail :=
  compose d <$> filter sendable l.

(** The world once the candidates [done] have been processed with every
    mail delivered. *)
Definition after (now : Z) (done : list Candidate) (w : World) : World :=
  {| db := set_reminders
             (mark_all now (filter sendable done) (reminders (db w))) (db w);
     outbox := outbox w ++ mails (db w) done |}.

(** The outcome of the reading loop on each row, the rows numbered from
    [idx] on. *)
Definition row_results (parse_due : string → option Z) (idx : nat)
    (rows : list CsvRow) : list (RowError + Parsed) :=
  imap (λ i row, parse_row parse_due (idx + i) row) rows.

Definition error_of (x : RowError + Parsed) : option RowError :=
  match x with inl e => Some e | inr _ => None end.

Definition parsed_of (x : RowError + Parsed) : option Parsed :=
  match x with inl _ => None | inr p => Some p end.

(** The errors of the rejected rows, in the order of the rows. *)
Definition row_errors (parse_due : string → option Z) (idx : nat)
    (rows : list CsvRow) : list RowError :=
  omap error_of (row_results parse_due idx rows).

Definition rows_parsed (parse_due : string → option Z) (idx : nat)
    (rows : list CsvRow) : list Parsed :=
  omap parsed_of (row_results parse_due idx rows).

(** The three ways in which a row fails validation. *)
Definition invalid (parse_due : string → option Z) (row : CsvRow) : Prop :=
  field row "title" = ""
  ∨ parse_due (field row "due_at") = None
  ∨ ∃ val, val ∈ pieces "," (field row "reminders_minutes_before")
           ∧ Py.int val = None.


(** The invariant of C5 on one reminder. *)
Definition consistent (r : Reminder) : Prop :=
  is_sent r = true ↔ is_Some (sent_at r).

(** One operation of the engine on the database: a run of the import
    command or an invocation of the task, whatever its outcome. *)
Inductive engine_step : DB → DB → Prop :=
  | step_import parse_due user_email rows d :
      engine_step d (handle parse_due user_email rows d).2
  | step_dispatch tr now w :
      engine_step (db w) (db (send_due_reminders tr now w).2).

(** The event that the writing loop makes for a parsed row. *)
Definition event_of (user_pk : nat) (p : Parsed) : Event :=
  {| user := user_pk; title := p_title p; description := p_description p;
     due_at := p_due p; status := STATUS_OPEN |}.


(** [d'] has the users and the reminders of [d], and beyond them only
    reminders that are unsent and carry no [sent_at]. *)
Definition grows (d d' : DB) : Prop :=
  users d' = users d
  ∧ (∀ pk r, reminders d !! pk = Some r → reminders d' !! pk = Some r)
  ∧ (∀ pk r', reminders d' !! pk = Some r' → reminders d !! pk = None →
              is_sent r' = false ∧ sent_at r' = None).

(** Every run of [m] relates the database before to the database after. *)
Definition keeps (R : relation DB) {A} (m : M A) : Prop :=
  ∀ d, R d (m d).2.

(** [d'] differs from [d] at most in the label tables. *)
Definition only_labels (d d' : DB) : Prop :=
  users d' = users d ∧ events d' = events d ∧ reminders d' = reminders d.

(** How one operation of the engine may leave a reminder [r'], given what the
    table held under its key before: the same row; no row, and [r'] is new,
    unsent and without [sent_at]; or an unsent row that the task marked. *)
Definition row_step (before : option Reminder) (r' : Reminder) : Prop :=
  before = Some r'
  ∨ (before = None ∧ is_sent r' = false ∧ sent_at r' = None)
  ∨ (∃ r now, before = Some r ∧ is_sent r = false ∧ r' = mark_sent now r).


(** Every character of [s] passes the test [P]. *)
Fixpoint all_chars (P : ascii → bool) (s : string) : bool :=
  match s with
  | EmptyString => true
  | String c s' => P c && all_chars P s'
  end.

Definition is_digit (c : ascii) : bool :=
  if Py.digit_of c is Some _ then true else false.


(** [unique_together = [("user", "name")]] of [Label]. *)
Definition labels_unique (d : DB) : Prop :=
  ∀ pk1 pk2 l1 l2,
    labels d !! pk1 = Some l1 → labels d !! pk2 = Some l2 →
    label_user l1 = label_user l2 → name l1 = name l2 → pk1 = pk2.

(** [unique_together = [("event", "label")]] of [EventLabel]. *)
Definition links_unique (d : DB) : Prop :=
  ∀ pk1 pk2 l,
    event_labels d !! pk1 = Some l → event_labels d !! pk2 = Some l →
    pk1 = pk2.

(** [d'] has the users of [d] and every row of [d]. *)
Definition extends (d d' : DB) : Prop :=
  users d' = users d
  ∧ events d ⊆ events d' ∧ labels d ⊆ labels d'
  ∧ event_labels d ⊆ event_labels d' ∧ reminders d ⊆ reminders d'.

(** The two constraints of the label tables pass from [d] to [d']. *)
Definition keeps_unique (d d' : DB) : Prop :=
  (labels_unique d → labels_unique d')
  ∧ (links_unique d → links_unique d').


(** The event with key [e] is the one made for the parsed row [p] and is
    linked to a label of the user for each label name of the row. *)
Definition labelled (user_pk : nat) (d : DB) (e : nat) (p : Parsed) : Prop :=
  events d !! e = Some (event_of user_pk p)
  ∧ ∀ nm, nm ∈ p_label_names p →
      ∃ lpk l k, labels d !! lpk = Some l
                 ∧ label_user l = user_pk ∧ name l = nm
                 ∧ event_labels d !! k = Some {| el_event := e; label := lpk |}.

(** A piece of a separated list that is read back as it is: not empty, no
    blank at either end, no separator inside. *)
Definition clean (sep : ascii) (s : string) : Prop :=
  s ≠ "" ∧ Py.strip s = s
  ∧ all_chars (λ c, negb (Ascii.eqb c sep)) s = true.

(** ** Concrete inputs *)

Module Sample.

Fixpoint number (s : string) (acc : Z) : option Z :=
  match s with
  | EmptyString => Some acc
  | String c s' => d ← Py.digit_of c; number s' (10 * acc + d)
  end.

(** A reader of the documented format of the [due_at] column,
    [YYYY-MM-DD HH:MM], to run the command on concrete rows;
    [dateutil] reads this format among others. *)
Definition parse_due (s : string) : option Z :=
  if bool_decide (String.length s = 16%nat ∧ substring 4 1 s = "-"
                  ∧ substring 7 1 s = "-" ∧ substring 10 1 s = " "
                  ∧ substring 13 1 s = ":")
  then
    y ← number (substring 0 4 s) 0;
    m ← number (substring 5 2 s) 0;
    d ← number (substring 8 2 s) 0;
    hh ← number (substring 11 2 s) 0;
    mm ← number (substring 14 2 s) 0;
    if (1 <=? y) && (1 <=? m) && (m <=? 12) && (1 <=? d)
       && (d <=? Py.days_in_month y m) && (hh <? 24) && (mm <? 60)
    then Some (Py.datetime y m d hh mm) else None
  else None.

Definition csv_row (title description due_at offsets labels : string)
    : CsvRow :=
  list_to_map [("title", title); ("description", description);
               ("due_at", due_at); ("reminders_minutes_before", offsets);
               ("labels", labels)].

Definition alice : User :=
  {| username := "alice"; email := "alice@example.com" |}.

(** A user without an address. *)
Definition bob : User := {| username := "bob"; email := "" |}.

Definition only_users : DB :=
  {| users := {[ 1%nat := alice; 2%nat := bob ]}; events := ∅;
     labels := ∅; event_labels := ∅; reminders := ∅ |}.

Definition always : Transport := λ _ _, true.
Definition never : Transport := λ _ _, false.

Definition t0 : Z := Py.datetime 2024 1 10 9 0.

Definition tax : Event :=
  {| user := 1; title := "Tax return"; description := ""; due_at := t0;
     status := STATUS_OPEN |}.

(** An event of bob, who has no address. *)
Definition rent : Event :=
  {| user := 2; title := "Rent"; description := "Pay the rent";
     due_at := t0; status := STATUS_OPEN |}.

(** [k] unsent reminders of alice's event, keys 1 to [k], all with
    [send_at = t]. *)
Definition backlog (k : nat) (t : Z) : DB :=
  {| users := {[ 1%nat := alice; 2%nat := bob ]};
     events := {[ 1%nat := tax; 2%nat := rent ]};
     labels := ∅; event_labels := ∅;
     reminders := list_to_map ((λ i, (i, new_reminder 1 t)) <$> seq 1 k) |}.

(** The same, with one earlier reminder of bob's event under key 0. *)
Definition backlog_with_bob (k : nat) (t : Z) : DB :=
  set_reminders (<[ 0%nat := new_reminder 2 (t - Py.US_PER_MINUTE) ]>
                   (reminders (backlog k t)))
                (backlog k t).

(** The number of unsent reminders of a table. *)
Definition unsent (d : DB) : nat :=
  length (filter (λ row : nat * Reminder, is_sent row.2 = false)
                 (map_to_list (reminders d))).

(** [k] unsent reminders of bob's event, keys 1 to [k], a minute before
    [t], then [j] unsent reminders of alice's event at [t]. *)
Definition blocked (k j : nat) (t : Z) : DB :=
  {| users := {[ 1%nat := alice; 2%nat := bob ]};
     events := {[ 1%nat := tax; 2%nat := rent ]};
     labels := ∅; event_labels := ∅;
     reminders :=
       list_to_map
         (((λ i, (i, new_reminder 2 (t - Py.US_PER_MINUTE))) <$> seq 1 k)
          ++ ((λ i, (i, new_reminder 1 t)) <$> seq (S k) j)) |}.

End Sample.

(** * Properties *)

(** ** The queryset of the task *)

Section Selection.

Implicit Types (d : DB) (c : Candidate) (now : Z).

#[local] Instance by_send_at_total : Total by_send_at.
Proof. intros a b. unfold by_send_at. lia. Qed.

#[local] Instance by_send_at_trans : Transitive by_send_at.
Proof. intros a b c. unfold by_send_at. lia. Qed.

Lemma due_reminders_unfold d now :
  due_reminders d now = take BATCH (merge_sort by_send_at (pending d now)).
Proof. reflexivity. Qed.

Lemma elem_of_joined d c :
  c ∈ joined d ↔
    reminders d !! c_pk c = Some (c_reminder c)
    ∧ events d !! event (c_reminder c) = Some (c_event c)
    ∧ users d !! user (c_event c) = Some (c_user c).
Proof.
  unfold joined. rewrite list_elem_of_omap. split.
  - intros ([pk r] & Hin & Hj). apply elem_of_map_to_list in Hin.
    unfold join in Hj. simpl in Hj.
    destruct (events d !! event r) as [e|] eqn:He; [|done]. simpl in Hj.
    destruct (users d !! user e) as [u|] eqn:Hu; [|done]. simpl in Hj.
    inversion Hj; subst; clear Hj. simpl. done.
  - intros (Hr & He & Hu). exists (c_pk c, c_reminder c). split.
    + by apply elem_of_map_to_list.
    + unfold join. simpl. rewrite He. simpl. rewrite Hu. simpl.
      by destruct c.
Qed.

Lemma joined_pk_sublist d (l : list (nat * Reminder)) :
  c_pk <$> omap (join d) l `sublist_of` l.*1.
Proof.
  induction l as [|[pk r] l IH]; [done|]. simpl.
  destruct (join d (pk, r)) as [c|] eqn:Hj.
  - assert (c_pk c = pk) as <-.
    { unfold join in Hj. simpl in Hj.
      destruct (events d !! event r) as [e|]; [|done]. simpl in Hj.
      destruct (users d !! user e) as [u|]; [|done]. simpl in Hj.
      by inversion Hj. }
    simpl. by apply sublist_skip.
  - by apply sublist_cons.
Qed.

Lemma NoDup_joined d : NoDup (c_pk <$> joined d).
Proof.
  eapply sublist_NoDup; [|apply joined_pk_sublist].
  apply NoDup_fst_map_to_list.
Qed.

Lemma elem_of_pending d now c :
  c ∈ pending d now ↔ is_due now (c_reminder c) ∧ c ∈ joined d.
Proof. unfold pending. by rewrite list_elem_of_filter. Qed.

Lemma NoDup_pending d now : NoDup (c_pk <$> pending d now).
Proof.
  eapply sublist_NoDup; [apply (NoDup_joined d)|].
  apply fmap_sublist, sublist_filter.
Qed.

Lemma due_reminders_pending d now c :
  c ∈ due_reminders d now → c ∈ pending d now.
Proof.
  rewrite due_reminders_unfold. intros Hin.
  eapply elem_of_sublist in Hin; [|apply sublist_take].
  by rewrite merge_sort_Permutation in Hin.
Qed.

Lemma NoDup_due_reminders d now : NoDup (c_pk <$> due_reminders d now).
Proof.
  rewrite due_reminders_unfold.
  eapply sublist_NoDup; [|apply fmap_sublist, sublist_take].
  rewrite merge_sort_Permutation. apply NoDup_pending.
Qed.

Lemma due_reminders_sorted d now :
  StronglySorted by_send_at (due_reminders d now).
Proof.
  rewrite due_reminders_unfold.
  eapply StronglySorted_app_1_l. rewrite take_drop.
  apply StronglySorted_merge_sort; apply _.
Qed.

Lemma due_reminders_length d now :
  length (due_reminders d now) = (BATCH `min` length (pending d now))%nat.
Proof.
  rewrite due_reminders_unfold, length_take.
  by rewrite (Permutation_length (merge_sort_Permutation by_send_at _)).
Qed.

(** A pending row is left out only when the batch is full, and then every
    row of the batch is at least as early. *)
Lemma left_out d now c :
  c ∈ pending d now → c ∉ due_reminders d now →
  length (due_reminders d now) = BATCH
  ∧ ∀ x, x ∈ due_reminders d now → by_send_at x c.
Proof.
  rewrite due_reminders_unfold. intros Hin Hout.
  set (s := merge_sort by_send_at (pending d now)) in *.
  assert (c ∈ drop BATCH s) as Hdrop.
  { assert (c ∈ take BATCH s ++ drop BATCH s) as Hc.
    { rewrite take_drop. unfold s. by rewrite merge_sort_Permutation. }
    apply elem_of_app in Hc as [?|?]; done. }
  split.
  - apply length_take_le.
    destruct (decide (BATCH ≤ length s)%nat) as [|Hlt]; [done|].
    rewrite drop_ge in Hdrop by lia. by apply elem_of_nil in Hdrop.
  - intros x Hx.
    eapply (StronglySorted_app_1_elem_of by_send_at (take BATCH s) (drop BATCH s));
      [|done..].
    rewrite take_drop. apply StronglySorted_merge_sort; apply _.
Qed.

(** With the foreign keys in place the joins lose no reminder. *)
Lemma fk_ok_joined d pk r :
  fk_ok d = true → reminders d !! pk = Some r →
  ∃ c, c ∈ joined d ∧ c_pk c = pk ∧ c_reminder c = r.
Proof.
  unfold fk_ok. rewrite andb_true_iff, !forallb_forall.
  intros [Hr He] Hlk.
  assert (is_Some (events d !! event r)) as [e Hev].
  { eapply bool_decide_eq_true_1, Hr, list_elem_of_In.
    apply list_elem_of_fmap. exists (pk, r). split; [done|].
    by apply elem_of_map_to_list. }
  assert (is_Some (users d !! user e)) as [u Hu].
  { eapply bool_decide_eq_true_1, He, list_elem_of_In.
    apply list_elem_of_fmap. exists (event r, e). split; [done|].
    by apply elem_of_map_to_list. }
  exists {| c_pk := pk; c_reminder := r; c_event := e; c_user := u |}.
  split; [|done]. by apply elem_of_joined.
Qed.

End Selection.

(** ** One run of the loop *)

Section Loop.

Implicit Types (tr : Transport) (now : Z) (w : World) (c : Candidate).

Lemma sendable_email c : sendable c ↔ email (c_user c) ≠ "".
Proof. unfold sendable. by destruct (email (c_user c)). Qed.

Lemma mark_sent_idemp now r : mark_sent now (mark_sent now r) = mark_sent now r.
Proof. done. Qed.

Lemma lookup_mark_all now l t pk :
  mark_all now l t !! pk =
    if decide (pk ∈ c_pk <$> l) then mark_sent now <$> t !! pk else t !! pk.
Proof.
  unfold mark_all. revert t. induction l as [|c l IH]; intros t.
  - destruct (decide _) as [Hin|]; [|done]. by apply elem_of_nil in Hin.
  - rewrite fmap_cons. cbn [foldl]. rewrite IH.
    destruct (decide (pk = c_pk c)) as [->|Hne].
    + rewrite lookup_alter_eq.
      rewrite (decide_True (P := c_pk c ∈ c_pk c :: _)) by apply list_elem_of_here.
      destruct (decide _); [|done].
      destruct (t !! c_pk c); simpl; by rewrite ?mark_sent_idemp.
    + rewrite lookup_alter_ne by done.
      destruct (decide (pk ∈ c_pk <$> l)) as [Hin|Hout].
      * by rewrite decide_True by by apply list_elem_of_further.
      * rewrite decide_False; [done|].
        rewrite not_elem_of_cons. done.
Qed.

Lemma compose_ext d d' c :
  labels d = labels d' → event_labels d = event_labels d' →
  compose d c = compose d' c.
Proof. intros Hl He. unfold compose, labels_all. by rewrite Hl, He. Qed.

Lemma after_nil now w : after now [] w = w.
Proof.
  unfold after, mails. simpl. rewrite app_nil_r.
  destruct w as [[] ?]. done.
Qed.

Lemma after_skip now c done w :
  ¬ sendable c → after now (c :: done) w = after now done w.
Proof.
  intros Hc. unfold after, mails. by rewrite filter_cons_False by done.
Qed.

(** The loop body on a candidate without address: nothing happens. *)
Lemma send_loop_skip tr now c rest n w :
  ¬ sendable c →
  send_loop tr now (c :: rest) n w = send_loop tr now rest n w.
Proof.
  intros Hc. simpl. unfold sendable in Hc.
  by destruct (Py.truthy (email (c_user c))).
Qed.

(** The loop body on a delivered mail. *)
Lemma send_loop_send tr now c rest n w :
  sendable c → tr (outbox w) (compose (db w) c) = true →
  is_Some (reminders (db w) !! c_pk c) →
  send_loop tr now (c :: rest) n w
  = send_loop tr now rest (S n) (after now [c] w).
Proof.
  intros Hc Htr [r Hr]. simpl. unfold sendable in Hc. rewrite Hc. simpl.
  rewrite Htr.
  assert (save_sent now (c_pk c) (db w) = Some (db (after now [c] w))) as Hs.
  { unfold save_sent. rewrite Hr. unfold after, mails.
    by rewrite filter_cons_True by done. }
  rewrite Hs. do 2 f_equal. unfold after, mails.
  by rewrite filter_cons_True by done.
Qed.

(** The loop body on a refused mail. *)
Lemma send_loop_fail tr now c rest n w :
  sendable c → tr (outbox w) (compose (db w) c) = false →
  send_loop tr now (c :: rest) n w = (Raised MailError, w).
Proof.
  intros Hc Htr. simpl. unfold sendable in Hc. rewrite Hc. simpl.
  by rewrite Htr.
Qed.

Lemma after_cons now c done w :
  after now (c :: done) w = after now done (after now [c] w).
Proof.
  unfold after, mails. destruct (decide (sendable c)) as [Hc|Hc].
  - rewrite !filter_cons_True by done. simpl. by rewrite <-app_assoc.
  - rewrite !filter_cons_False by done. simpl. by rewrite app_nil_r.
Qed.

Lemma after_reminders now done w pk :
  reminders (db (after now done w)) !! pk =
    if decide (pk ∈ c_pk <$> filter sendable done)
    then mark_sent now <$> reminders (db w) !! pk
    else reminders (db w) !! pk.
Proof. apply lookup_mark_all. Qed.

Lemma after_is_Some now done w pk :
  is_Some (reminders (db w) !! pk) →
  is_Some (reminders (db (after now done w)) !! pk).
Proof.
  intros [r Hr]. rewrite after_reminders, Hr. by destruct (decide _).
Qed.


Lemma compose_after now l w c :
  compose (db (after now l w)) c = compose (db w) c.
Proof. by apply compose_ext. Qed.

Lemma mails_after now l w l' : mails (db (after now l w)) l' = mails (db w) l'.
Proof.
  unfold mails. apply list_fmap_ext. intros ? c ?. apply compose_after.
Qed.

Lemma outbox_after_one now c w :
  sendable c → outbox (after now [c] w) = outbox w ++ [compose (db w) c].
Proof. intros Hc. unfold after, mails. by rewrite filter_cons_True by done. Qed.

(** Every run stops after a prefix [done] of the batch: at its end, or on
    the first mail that the backend refuses. *)
Lemma send_loop_run tr now batch n w :
  (∀ c, c ∈ batch → is_Some (reminders (db w) !! c_pk c)) →
  ∃ done rest,
    batch = done ++ rest
    ∧ accepts tr (outbox w) (mails (db w) done) = true
    ∧ (send_loop tr now batch n w).2 = after now done w
    ∧ (((send_loop tr now batch n w).1
          = Returned (n + length (filter sendable done)) ∧ rest = [])
       ∨ ((send_loop tr now batch n w).1 = Raised MailError
          ∧ ∃ c rest', rest = c :: rest' ∧ sendable c
              ∧ tr (outbox (after now done w)) (compose (db w) c) = false)).
Proof.
  revert n w. induction batch as [|c batch IH]; intros n w Hpk.
  - exists [], []. rewrite after_nil. simpl. rewrite Nat.add_0_r.
    split_and!; [done..|]. by left.
  - assert (∀ x, x ∈ batch → is_Some (reminders (db (after now [c] w)) !! c_pk x))
      as Hpk'.
    { intros x Hx. apply after_is_Some, Hpk. by right. }
    destruct (decide (sendable c)) as [Hc|Hc].
    + destruct (tr (outbox w) (compose (db w) c)) eqn:Htr.
      * rewrite send_loop_send; [|done..|apply Hpk; by left].
        destruct (IH (S n) _ Hpk') as (done & rest & -> & Hacc & Hw & Hout).
        exists (c :: done), rest. rewrite (after_cons now c done w).
        rewrite mails_after, outbox_after_one in Hacc by done.
        split_and!; [done| |done|].
        -- unfold mails in *. rewrite filter_cons_True by done. simpl.
           by rewrite Htr.
        -- rewrite filter_cons_True by done. simpl.
           destruct Hout as [[Hr ->]|(Hr & c' & rest' & -> & Hc' & Hf)].
           ++ left. rewrite Hr. split; [f_equal; lia|done].
           ++ right. split; [done|]. exists c', rest'.
              by rewrite compose_after in Hf.
      * rewrite send_loop_fail by done. exists [], (c :: batch).
        rewrite after_nil. simpl. split_and!; [done..|].
        right. split; [done|]. by exists c, batch.
    + rewrite send_loop_skip by done.
      destruct (IH n w) as (done & rest & -> & Hacc & Hw & Hout).
      { intros x Hx. apply Hpk. by right. }
      exists (c :: done), rest. rewrite after_skip by done.
      unfold mails in *. rewrite !filter_cons_False by done.
      split_and!; done.
Qed.

End Loop.

(** ** One invocation of the task *)

Section Invocation.

Implicit Types (tr : Transport) (now : Z) (w : World) (c : Candidate).

Lemma due_reminders_row d now c :
  c ∈ due_reminders d now →
  reminders d !! c_pk c = Some (c_reminder c) ∧ is_due now (c_reminder c).
Proof.
  intros Hc%due_reminders_pending%elem_of_pending.
  destruct Hc as [Hdue Hj%elem_of_joined]. by destruct Hj.
Qed.

Lemma NoDup_fmap_eq {A B} (f : A → B) (l : list A) x y :
  NoDup (f <$> l) → x ∈ l → y ∈ l → f x = f y → x = y.
Proof.
  induction l as [|a l IH]; intros Hnd Hx Hy Hf.
  - by apply elem_of_nil in Hx.
  - rewrite fmap_cons in Hnd. apply NoDup_cons in Hnd as [Ha Hnd].
    apply elem_of_cons in Hx as [->|Hx], Hy as [->|Hy]; [done| | |by apply IH].
    + exfalso. apply Ha. rewrite Hf. by apply list_elem_of_fmap_2.
    + exfalso. apply Ha. rewrite <-Hf. by apply list_elem_of_fmap_2.
Qed.

Lemma send_due_reminders_run tr now w :
  ∃ done rest,
    due_reminders (db w) now = done ++ rest
    ∧ accepts tr (outbox w) (mails (db w) done) = true
    ∧ (send_due_reminders tr now w).2 = after now done w
    ∧ (((send_due_reminders tr now w).1
          = Returned (length (filter sendable done)) ∧ rest = [])
       ∨ ((send_due_reminders tr now w).1 = Raised MailError
          ∧ ∃ c rest', rest = c :: rest' ∧ sendable c
              ∧ tr (outbox (after now done w)) (compose (db w) c) = false)).
Proof.
  apply (send_loop_run tr now (due_reminders (db w) now) 0).
  intros c [Hc _]%due_reminders_row. by rewrite Hc.
Qed.

(** The row of a candidate of the batch after the prefix [done] has been
    processed: marked when the candidate is in [done] and got a mail, as
    it was otherwise. *)
Lemma after_row now w done rest c :
  due_reminders (db w) now = done ++ rest → c ∈ done ++ rest →
  reminders (db (after now done w)) !! c_pk c =
    Some (if decide (c ∈ done ∧ sendable c)
          then mark_sent now (c_reminder c) else c_reminder c).
Proof.
  intros Hb Hc. rewrite after_reminders.
  assert (reminders (db w) !! c_pk c = Some (c_reminder c)) as ->.
  { apply (due_reminders_row _ now). by rewrite Hb. }
  pose proof (NoDup_due_reminders (db w) now) as Hnd. rewrite Hb in Hnd.
  destruct (decide (c ∈ done ∧ sendable c)) as [[Hd Hs]|Hn].
  - rewrite decide_True; [done|].
    apply list_elem_of_fmap_2. by apply list_elem_of_filter.
  - rewrite decide_False; [done|].
    intros (c' & Hpk & [Hs' Hd']%list_elem_of_filter)%list_elem_of_fmap.
    assert (c = c') as <-.
    { eapply NoDup_fmap_eq; [exact Hnd|done| |done].
      apply elem_of_app. by left. }
    by apply Hn.
Qed.

(** Rows outside the batch are never written. *)
Lemma after_other now w done rest pk :
  due_reminders (db w) now = done ++ rest →
  pk ∉ c_pk <$> due_reminders (db w) now →
  reminders (db (after now done w)) !! pk = reminders (db w) !! pk.
Proof.
  intros Hb Hpk. rewrite after_reminders, decide_False; [done|].
  intros (c & -> & [_ Hc]%list_elem_of_filter)%list_elem_of_fmap.
  apply Hpk, list_elem_of_fmap_2. rewrite Hb. apply elem_of_app. by left.
Qed.

End Invocation.

(** ** The claims about the task *)

(** C1.  Every invocation of [send_due_reminders] works on a batch that holds
    only reminders of the table that are unsent and due at [now], each once,
    in ascending order of [send_at], and at most 200 of them; an unsent due
    reminder is left out of the batch only when the batch holds 200
    reminders that are all at least as early.  Reminders outside the batch
    stay as they are, and when the invocation returns every reminder of the
    batch has been processed: marked sent, or passed over for want of an
    address. *)
Theorem C1_batch_is_the_200_earliest_due (tr : Transport) (now : Z) (w : World) :
  fk_ok (db w) = true →
  let batch := due_reminders (db w) now in
  let res := send_due_reminders tr now w in
  (∀ c, c ∈ batch →
        reminders (db w) !! c_pk c = Some (c_reminder c)
        ∧ is_sent (c_reminder c) = false ∧ send_at (c_reminder c) ≤ now)
  ∧ NoDup (c_pk <$> batch)
  ∧ StronglySorted by_send_at batch
  ∧ (length batch ≤ 200)%nat
  ∧ (∀ pk r, reminders (db w) !! pk = Some r →
             is_sent r = false → send_at r ≤ now →
             pk ∉ c_pk <$> batch →
             length batch = 200%nat
             ∧ ∀ c, c ∈ batch → send_at (c_reminder c) ≤ send_at r)
  ∧ (∀ pk, pk ∉ c_pk <$> batch →
           reminders (db res.2) !! pk = reminders (db w) !! pk)
  ∧ (∀ n, res.1 = Returned n → ∀ c, c ∈ batch →
          reminders (db res.2) !! c_pk c =
            Some (if decide (sendable c)
                  then mark_sent now (c_reminder c) else c_reminder c)).
Proof.
  intros Hfk batch res.
  destruct (send_due_reminders_run tr now w)
    as (done & rest & Hb & Hacc & Hw & Hout).
  fold res in Hw, Hout. fold batch in Hb.
  split_and!.
  - intros c Hc. apply due_reminders_row in Hc as [? [? ?]]. done.
  - apply NoDup_due_reminders.
  - apply due_reminders_sorted.
  - unfold batch. rewrite due_reminders_length. unfold BATCH. lia.
  - intros pk r Hr Hs Hat Hout'.
    destruct (fk_ok_joined _ _ _ Hfk Hr) as (c & Hj & <- & <-).
    apply (left_out (db w) now c).
    + apply elem_of_pending. done.
    + intros Hin. apply Hout'. by apply list_elem_of_fmap_2.
  - intros pk Hpk. rewrite Hw. by eapply after_other.
  - intros n Hn c Hc. rewrite Hw.
    destruct Hout as [[_ ->]|[Hr _]]; [|congruence].
    rewrite app_nil_r in Hb.
    rewrite (after_row now w done []); rewrite ?app_nil_r, <-?Hb; [|done..].
    destruct (decide (sendable c)), (decide (c ∈ batch ∧ sendable c));
      tauto || done.
Qed.

(** A backlog of 250 reminders due at once: one invocation sends 200 and
    leaves 50 unsent. *)
Lemma C1_batch_is_the_200_earliest_due_witness :
  let w := {| db := Sample.backlog 250 Sample.t0; outbox := [] |} in
  fk_ok (db w) = true
  ∧ length (due_reminders (db w) Sample.t0) = 200%nat
  ∧ (send_due_reminders Sample.always Sample.t0 w).1 = Returned 200
  ∧ Sample.unsent (db (send_due_reminders Sample.always Sample.t0 w).2) = 50%nat
  ∧ ∀ pk, pk ∉ c_pk <$> due_reminders (db w) Sample.t0 →
          reminders (db (send_due_reminders Sample.always Sample.t0 w).2) !! pk
          = reminders (db w) !! pk.
Proof.
  intros w.
  assert (fk_ok (db w) = true) as Hfk by (vm_compute; reflexivity).
  split; [exact Hfk|].
  destruct (C1_batch_is_the_200_earliest_due Sample.always Sample.t0 w Hfk)
    as (_ & _ & _ & _ & _ & Hrest & _).
  split; [vm_compute; reflexivity|].
  split; [vm_compute; reflexivity|].
  split; [vm_compute; reflexivity|].
  exact Hrest.
Defined.

Lemma after_nothing_sendable now done w :
  (∀ c, c ∈ done → ¬ sendable c) → after now done w = w.
Proof.
  intros Hno. induction done as [|c done IH]; [apply after_nil|].
  rewrite after_skip by (apply Hno; by left).
  apply IH. intros x Hx. apply Hno. by right.
Qed.

Lemma filter_length_le_app {A} (P : A → Prop) `{∀ x, Decision (P x)}
    (l k : list A) :
  (length (filter P l) ≤ length (filter P (l ++ k)))%nat.
Proof. rewrite filter_app, length_app. lia. Qed.

(** A returning invocation counts the candidates of the batch that have an
    address. *)
Lemma returned_count tr now w n :
  (send_due_reminders tr now w).1 = Returned n →
  n = length (filter sendable (due_reminders (db w) now)).
Proof.
  intros Hn.
  destruct (send_due_reminders_run tr now w)
    as (done & rest & Hb & _ & _ & [[Hr ->]|[Hr _]]); [|congruence].
  rewrite app_nil_r in Hb. rewrite Hb. congruence.
Qed.

(** A batch without any address: nothing is sent, nothing is written. *)
Lemma run_without_addresses tr now w :
  (∀ c, c ∈ due_reminders (db w) now → ¬ sendable c) →
  send_due_reminders tr now w = (Returned 0%nat, w).
Proof.
  intros Hno.
  destruct (send_due_reminders_run tr now w)
    as (done & rest & Hb & Hacc & Hw & Hout).
  rewrite Hb in Hno.
  assert (filter sendable done = []) as Hnil.
  { apply elem_of_nil_inv. intros c [Hs Hc]%list_elem_of_filter.
    apply (Hno c); [|done]. apply elem_of_app. by left. }
  rewrite after_nothing_sendable in Hw.
  2: { intros c Hc. apply Hno, elem_of_app. by left. }
  destruct Hout as [[Hr _]|(_ & c & rest' & -> & Hs & _)].
  - rewrite Hnil in Hr. simpl in Hr.
    destruct (send_due_reminders tr now w). simpl in *. congruence.
  - exfalso. apply (Hno c); [|done]. apply elem_of_app. right. by left.
Qed.

(** C2.  A candidate whose user has no address is passed over: the loop body
    hands the database, the outbox and the count unchanged to the rest of the
    batch, without consulting the mail backend.  In an invocation, the row of
    such a reminder is afterwards as it was (unsent, and without [sent_at]
    when the row was consistent), the
    run delivers at most one mail per candidate that has an address, the
    returned count is the number of those, and a batch made only of such
    reminders returns 0 and changes nothing, whatever the backend would do. *)
Theorem C2_no_address_is_skipped (tr : Transport) (now : Z) (w : World) :
  let batch := due_reminders (db w) now in
  let res := send_due_reminders tr now w in
  (∀ c rest n w', email (c_user c) = "" →
      send_loop tr now (c :: rest) n w' = send_loop tr now rest n w')
  ∧ (∀ c, c ∈ batch → email (c_user c) = "" →
        reminders (db res.2) !! c_pk c = Some (c_reminder c)
        ∧ is_sent (c_reminder c) = false
        ∧ (consistent (c_reminder c) → sent_at (c_reminder c) = None))
  ∧ (length (outbox res.2)
       ≤ length (outbox w) + length (filter sendable batch))%nat
  ∧ (∀ n, res.1 = Returned n → n = length (filter sendable batch))
  ∧ ((∀ c, c ∈ batch → email (c_user c) = "") → res = (Returned 0%nat, w)).
Proof.
  intros batch res.
  destruct (send_due_reminders_run tr now w)
    as (done & rest & Hb & Hacc & Hw & Hout).
  fold res in Hw, Hout. fold batch in Hb.
  split_and!.
  - intros c rest' n w' He. apply send_loop_skip.
    rewrite sendable_email. tauto.
  - intros c Hc He.
    assert (is_sent (c_reminder c) = false) as Hunsent
      by (by apply due_reminders_row in Hc as [_ [? _]]).
    split_and!; [|done|].
    + rewrite Hw, (after_row now w done rest); [|done|by rewrite <-Hb].
      rewrite decide_False; [done|].
      intros [_ Hs%sendable_email]. done.
    + intros Hcons. destruct (sent_at (c_reminder c)) as [t|] eqn:Ht; [|done].
      assert (is_sent (c_reminder c) = true) as Hsent
        by (apply Hcons; rewrite Ht; by eexists).
      congruence.
  - rewrite Hw, Hb. unfold after, mails. simpl.
    rewrite length_app, length_fmap.
    pose proof (filter_length_le_app sendable done rest). lia.
  - intros n Hn. by apply (returned_count tr).
  - intros Hall. apply (run_without_addresses tr). intros c Hc.
    rewrite sendable_email. specialize (Hall c Hc). tauto.
Qed.



(** C8.  A delivered mail marks its reminder at once: the loop body goes on
    to the rest of the batch with the row already written ([is_sent] true,
    [sent_at] the [now] of the invocation, nothing else changed), the mail in
    the outbox and the count raised by one.  Whatever the outcome of an
    invocation, the mails it delivered are those of a prefix of the batch and
    each of their reminders is marked; when it returns, the prefix is the
    whole batch and the count is the number of mails.  A batch of one
    reminder whose user has an address and whose mail is delivered gives
    count 1. *)
Theorem C8_delivered_mail_marks_and_counts (tr : Transport) (now : Z)
    (w : World) :
  let batch := due_reminders (db w) now in
  let res := send_due_reminders tr now w in
  (∀ r, is_sent (mark_sent now r) = true ∧ sent_at (mark_sent now r) = Some now
        ∧ send_at (mark_sent now r) = send_at r ∧ event (mark_sent now r) = event r
        ∧ channel (mark_sent now r) = channel r)
  ∧ (∀ c rest n w' r,
        sendable c → reminders (db w') !! c_pk c = Some r →
        tr (outbox w') (compose (db w') c) = true →
        ∃ w'', send_loop tr now (c :: rest) n w' = send_loop tr now rest (S n) w''
              ∧ reminders (db w'') !! c_pk c = Some (mark_sent now r)
              ∧ (∀ pk, pk ≠ c_pk c →
                       reminders (db w'') !! pk = reminders (db w') !! pk)
              ∧ outbox w'' = outbox w' ++ [compose (db w') c])
  ∧ (∃ done rest,
        batch = done ++ rest
        ∧ outbox res.2 = outbox w ++ mails (db w) done
        ∧ (∀ c, c ∈ done → sendable c →
                reminders (db res.2) !! c_pk c
                = Some (mark_sent now (c_reminder c)))
        ∧ (∀ n, res.1 = Returned n →
                rest = [] ∧ n = length (mails (db w) done)))
  ∧ (∀ c, batch = [c] → sendable c →
          tr (outbox w) (compose (db w) c) = true →
          res.1 = Returned 1
          ∧ outbox res.2 = outbox w ++ [compose (db w) c]
          ∧ reminders (db res.2) !! c_pk c = Some (mark_sent now (c_reminder c))).
Proof.
  intros batch res. split_and!.
  - done.
  - intros c rest n w' r Hs Hr Htr. exists (after now [c] w').
    split_and!.
    + apply send_loop_send; [done..|]. by rewrite Hr.
    + rewrite after_reminders, filter_cons_True, Hr by done.
      by rewrite decide_True by apply list_elem_of_here.
    + intros pk Hpk. rewrite after_reminders, filter_cons_True by done.
      rewrite decide_False; [done|].
      by intros ->%list_elem_of_singleton.
    + by apply outbox_after_one.
  - destruct (send_due_reminders_run tr now w)
      as (done & rest & Hb & Hacc & Hw & Hout).
    fold res in Hw, Hout. fold batch in Hb.
    exists done, rest. split_and!; [done|by rewrite Hw| |].
    + intros c Hc Hs. rewrite Hw, (after_row now w done rest); [|done|].
      * by rewrite decide_True.
      * apply elem_of_app. by left.
    + intros n Hn. unfold mails. rewrite length_fmap.
      destruct Hout as [[Hr ->]|[Hr _]]; [|congruence].
      split; [done|congruence].
  - intros c Hb Hs Htr.
    assert (res = (Returned 1, after now [c] w)) as ->.
    { unfold res, send_due_reminders. fold batch. rewrite Hb.
      apply send_loop_send; [done..|].
      assert (c ∈ due_reminders (db w) now) as Hin.
      { fold batch. rewrite Hb. by left. }
      apply due_reminders_row in Hin as [-> _]. done. }
    cbn [fst snd]. split_and!; [done|by apply outbox_after_one|].
    rewrite (after_row now w [c] []); [|done|by left].
    rewrite decide_True; [done|]. split; [by left|done].
Qed.

(** One reminder that fell due five minutes ago. *)
Lemma C8_delivered_mail_marks_and_counts_witness :
  let w := {| db := Sample.backlog 1 (Sample.t0 - 5 * Py.US_PER_MINUTE);
              outbox := [] |} in
  let res := send_due_reminders Sample.always Sample.t0 w in
  res.1 = Returned 1
  ∧ recipient_list <$> outbox res.2 = [["alice@example.com"]]
  ∧ reminders (db res.2) !! 1%nat
    = Some {| event := 1; channel := CHANNEL_EMAIL;
              send_at := Sample.t0 - 5 * Py.US_PER_MINUTE;
              is_sent := true; sent_at := Some Sample.t0 |}.
Proof.
  intros w res.
  pose proof (C8_delivered_mail_marks_and_counts Sample.always Sample.t0 w)
    as HC8.
  cbv zeta in HC8. destruct HC8 as (_ & _ & _ & Hone).
  destruct (Hone (Build_Candidate 1 (new_reminder 1 (Sample.t0 - 5 * Py.US_PER_MINUTE))
                    Sample.tax Sample.alice))
    as (Hn & Hout & Hrow); [vm_compute; reflexivity..|].
  split; [exact Hn|]. split; [|exact Hrow].
  fold res in Hout. rewrite Hout. vm_compute. reflexivity.
Defined.



Example backlog_of_201_takes_two_runs :
  let w := {| db := Sample.backlog 201 Sample.t0; outbox := [] |} in
  let r1 := send_due_reminders Sample.always Sample.t0 w in
  let r2 := send_due_reminders Sample.always Sample.t0 r1.2 in
  r1.1 = Returned 200 ∧ r2.1 = Returned 1
  ∧ length (outbox r1.2) = 200%nat ∧ length (outbox r2.2) = 201%nat.
Proof. vm_compute. done. Qed.

Lemma mark_sent_changes now r : is_sent r = false → mark_sent now r ≠ r.
Proof. intros Hr Heq. rewrite <-Heq in Hr. done. Qed.



Lemma longer_list_has_extra {A} `{EqDecision A} (l k : list A) :
  NoDup l → (length k < length l)%nat → ∃ x, x ∈ l ∧ x ∉ k.
Proof.
  intros Hnd Hlen.
  destruct (decide (Forall (λ x, x ∈ k) l)) as [Hall|Hex].
  - rewrite Forall_forall in Hall.
    pose proof (submseteq_length _ _ (NoDup_submseteq _ _ Hnd Hall)). lia.
  - apply not_Forall_Exists in Hex; [|apply _].
    apply Exists_exists in Hex as (x & Hx & Hk). by exists x.
Qed.

Lemma NoDup_pending_rows d now : NoDup (pending d now).
Proof. eapply NoDup_fmap_1, NoDup_pending. Qed.

(** C10.  The batch is cut by [send_at] alone.  A due unsent reminder whose
    user has no address and that is earlier than some reminder of the batch
    is in the batch; then, with more than 200 due reminders that could be
    sent, a returning invocation sends fewer than 200 mails, and some due
    reminder that could have been sent is outside the batch and still
    pending afterwards. *)
Theorem C10_cap_counts_examined_not_sent (tr : Transport) (now : Z) (w : World)
    (c x : Candidate) (n : nat) :
  c ∈ pending (db w) now → ¬ sendable c →
  x ∈ due_reminders (db w) now →
  send_at (c_reminder c) < send_at (c_reminder x) →
  (200 < length (filter sendable (pending (db w) now)))%nat →
  (send_due_reminders tr now w).1 = Returned n →
  let batch := due_reminders (db w) now in
  let res := send_due_reminders tr now w in
  c ∈ batch
  ∧ n = length (filter sendable batch)
  ∧ (n < 200)%nat
  ∧ ∃ c', sendable c' ∧ c' ∈ pending (db w) now ∧ (c' ∉ batch)
          ∧ c' ∈ pending (db res.2) now.
Proof.
  intros Hc Hno Hx Hlt Hmany Hret batch res.
  assert (c ∈ batch) as Hin.
  { destruct (decide (c ∈ batch)) as [|Hout]; [done|exfalso].
    destruct (left_out (db w) now c Hc Hout) as [_ Hle].
    specialize (Hle x Hx). unfold by_send_at in Hle. lia. }
  assert (length batch ≤ 200)%nat as Hcap.
  { unfold batch. rewrite due_reminders_length. unfold BATCH. lia. }
  pose proof (returned_count tr now w n Hret) as Hcount.
  fold batch in Hcount.
  pose proof (length_filter_lt sendable batch c Hin Hno) as Hless.
  split_and!; [done|done|lia|].
  destruct (longer_list_has_extra (filter sendable (pending (db w) now)) batch)
    as (c' & [Hs Hp]%list_elem_of_filter & Hout).
  { apply NoDup_filter, NoDup_pending_rows. }
  { lia. }
  exists c'. split_and!; [done..|].
  destruct (send_due_reminders_run tr now w) as (done & rest & Hb & _ & Hw & _).
  fold res in Hw. rewrite Hw.
  apply elem_of_pending in Hp as [Hdue Hj]. apply elem_of_pending.
  split; [done|]. apply elem_of_joined in Hj as (Hrow & Hev & Hu).
  apply elem_of_joined. split_and!; [|done..].
  rewrite (after_other now w done rest); [done..|].
  intros (y & Hpk & Hy)%list_elem_of_fmap. apply Hout.
  assert (c' = y) as ->; [|done].
  eapply (NoDup_fmap_eq c_pk (pending (db w) now));
    [apply NoDup_pending| |by apply due_reminders_pending|done].
  apply elem_of_pending. split; [done|]. by apply elem_of_joined.
Qed.


(** One early reminder without address and 250 that can be sent: the first
    invocation sends 199, the next one 51. *)
Lemma C10_cap_counts_examined_not_sent_witness :
  let w := {| db := Sample.backlog_with_bob 250 Sample.t0; outbox := [] |} in
  let res := send_due_reminders Sample.always Sample.t0 w in
  res.1 = Returned 199
  ∧ (199 < 200)%nat
  ∧ length (filter sendable (pending (db w) Sample.t0)) = 250%nat
  ∧ Sample.unsent (db res.2) = 52%nat
  ∧ (send_due_reminders Sample.always Sample.t0 res.2).1 = Returned 51.
Proof.
  intros w res.
  set (c := Build_Candidate 0 (new_reminder 2 (Sample.t0 - Py.US_PER_MINUTE))
              Sample.rent Sample.bob).
  set (x := Build_Candidate 1 (new_reminder 1 Sample.t0) Sample.tax Sample.alice).
  assert (res.1 = Returned 199) as H1 by (vm_compute; reflexivity).
  assert (c ∈ pending (db w) Sample.t0) as Hc.
  { apply (bool_decide_eq_true_1 (c ∈ pending (db w) Sample.t0)).
    vm_compute. reflexivity. }
  assert (¬ sendable c) as Hno by (vm_compute; discriminate).
  assert (x ∈ due_reminders (db w) Sample.t0) as Hx.
  { apply (bool_decide_eq_true_1 (x ∈ due_reminders (db w) Sample.t0)).
    vm_compute. reflexivity. }
  assert (send_at (c_reminder c) < send_at (c_reminder x)) as Hlt
    by (vm_compute; reflexivity).
  assert (length (filter sendable (pending (db w) Sample.t0)) = 250%nat) as Hmany
    by (vm_compute; reflexivity).
  assert (200 < length (filter sendable (pending (db w) Sample.t0)))%nat as Hgt
    by (rewrite Hmany; lia).
  pose proof (C10_cap_counts_examined_not_sent Sample.always Sample.t0 w
                c x 199 Hc Hno Hx Hlt Hgt H1) as HC10.
  cbv zeta in HC10. destruct HC10 as (_ & _ & Hless & _).
  split; [exact H1|]. split; [exact Hless|]. split; [exact Hmany|].
  split; vm_compute; reflexivity.
Defined.

(** ** The reading phase of the import *)

Section Reading.

Variable parse_due : string → option Z.

Lemma read_rows_spec idx rows errors todo :
  read_rows parse_due idx rows errors todo
  = (errors ++ row_errors parse_due idx rows,
     todo ++ rows_parsed parse_due idx rows).
Proof.
  revert idx errors todo. induction rows as [|row rows IH];
    intros idx errors todo.
  - unfold row_errors, rows_parsed. simpl. by rewrite !app_nil_r.
  - assert (row_results parse_due idx (row :: rows)
            = parse_row parse_due idx row :: row_results parse_due (S idx) rows)
      as Hres.
    { unfold row_results. rewrite imap_cons, Nat.add_0_r. f_equal.
      apply imap_ext. intros i x _. simpl. f_equal. lia. }
    unfold row_errors, rows_parsed. rewrite Hres. simpl.
    destruct (parse_row parse_due idx row) as [e|p]; simpl;
      rewrite IH; unfold row_errors, rows_parsed;
      by rewrite <-?app_assoc.
Qed.

Lemma elem_of_row_errors idx rows e :
  e ∈ row_errors parse_due idx rows ↔
    ∃ j row, rows !! j = Some row
             ∧ parse_row parse_due (idx + j) row = inl e.
Proof.
  unfold row_errors, row_results. rewrite list_elem_of_omap. split.
  - intros (x & Hx & He). apply list_elem_of_lookup in Hx as [j Hj].
    rewrite list_lookup_imap in Hj.
    destruct (rows !! j) as [row|] eqn:Hrow; [|done]. simpl in Hj.
    exists j, row. split; [done|]. destruct x; simpl in He; congruence.
  - intros (j & row & Hrow & Hp). exists (inl e). split; [|done].
    apply list_elem_of_lookup. exists j.
    by rewrite list_lookup_imap, Hrow, <-Hp.
Qed.

Lemma rows_parsed_all idx rows :
  row_errors parse_due idx rows = [] →
  length (rows_parsed parse_due idx rows) = length rows
  ∧ ∀ j row, rows !! j = Some row →
      ∃ p, rows_parsed parse_due idx rows !! j = Some p
           ∧ parse_row parse_due (idx + j) row = inr p.
Proof.
  revert idx. induction rows as [|row rows IH]; intros idx Herr.
  - split; [done|]. intros j row Hj. by rewrite lookup_nil in Hj.
  - assert (row_results parse_due idx (row :: rows)
            = parse_row parse_due idx row :: row_results parse_due (S idx) rows)
      as Hres.
    { unfold row_results. rewrite imap_cons, Nat.add_0_r. f_equal.
      apply imap_ext. intros i x _. simpl. f_equal. lia. }
    unfold row_errors, rows_parsed in *. rewrite Hres in *. simpl in *.
    destruct (parse_row parse_due idx row) as [e|p] eqn:Hp; [done|].
    simpl in *. destruct (IH (S idx) Herr) as [Hlen Hall].
    split; [simpl; by f_equal|]. intros [|j] row' Hj; simpl in *.
    + inversion Hj; subst. exists p. by rewrite Nat.add_0_r.
    + destruct (Hall j row' Hj) as (p' & Hp' & Hpr). exists p'.
      split; [done|]. by replace (idx + S j)%nat with (S idx + j)%nat by lia.
Qed.

(** A row is rejected exactly when it is invalid, and the error carries
    the number of the row. *)
Lemma parse_row_rejects idx row :
  invalid parse_due row ↔ ∃ e, parse_row parse_due idx row = inl e.
Proof.
  unfold invalid, parse_row, parse_offsets.
  destruct (field row "title") as [|a t] eqn:Ht; simpl.
  { split; [eauto|]. by left. }
  destruct (parse_due (field row "due_at")) as [due|] eqn:Hd.
  2: { split; [eauto|]. right. by left. }
  destruct (field row "reminders_minutes_before") as [|b o] eqn:Ho.
  { simpl. split; [|by intros [e ?]].
    intros [?|[?|(val & Hval & _)]]; [done..|].
    exfalso. assert (pieces "," "" = []) as Hnil by (vm_compute; reflexivity).
    rewrite Hnil in Hval. by apply elem_of_nil in Hval. }
  cbn [Py.truthy].
  destruct (mapM Py.int (pieces "," (String b o))) as [l|] eqn:Hm.
  - split; [|by intros [e ?]].
    intros [?|[?|(val & Hval & Hint)]]; [done..|]. exfalso.
    apply mapM_Some_1 in Hm.
    apply list_elem_of_lookup in Hval as [k Hk].
    destruct (Forall2_lookup_l _ _ _ _ _ Hm Hk) as (z & _ & Hz). congruence.
  - split; [eauto|]. intros _. right. right.
    apply mapM_None_1, Exists_exists in Hm as (val & Hval & Hnone).
    by exists val.
Qed.

Lemma parse_row_error_row idx row e :
  parse_row parse_due idx row = inl e → error_row e = idx.
Proof.
  unfold parse_row. destruct (negb _); [by intros [= <-]|].
  destruct (parse_due _); [|by intros [= <-]].
  destruct (parse_offsets _); [done|by intros [= <-]].
Qed.

End Reading.

(** C7.  When some row of the file is invalid (no title, a [due_at] that
    cannot be read, or an offset that [int] rejects), the command leaves
    every table as it was and does not report a successful import; when the
    user exists, it ends with the abort error after writing to stderr one
    error for each invalid row, in the order of the rows, each carrying the
    number of its row. *)
Theorem C7_invalid_row_aborts_without_writes (parse_due : string → option Z)
    (user_email : string) (rows : list CsvRow) (d : DB) (i : nat) (row : CsvRow) :
  rows !! i = Some row → invalid parse_due row →
  let res := handle parse_due user_email rows d in
  res.2 = d
  ∧ (∀ n, res.1 ≠ Imported n)
  ∧ (∀ user_pk, get (λ u, email u = user_email) (users d) = Found user_pk →
        res.1 = Aborted (row_errors parse_due 2 rows))
  ∧ (∃ e, e ∈ row_errors parse_due 2 rows ∧ error_row e = (2 + i)%nat)
  ∧ (∀ e, e ∈ row_errors parse_due 2 rows ↔
          ∃ j row', rows !! j = Some row' ∧ invalid parse_due row'
                    ∧ parse_row parse_due (2 + j) row' = inl e
                    ∧ error_row e = (2 + j)%nat).
Proof.
  intros Hrow Hinv res.
  destruct (proj1 (parse_row_rejects parse_due (2 + i) row) Hinv) as [e He].
  assert (e ∈ row_errors parse_due 2 rows) as Hin.
  { apply elem_of_row_errors. by exists i, row. }
  assert (res = match get (λ u, email u = user_email) (users d) with
                | DoesNotExist => (NoUserFound, d)
                | Multiple => (Crashed MultipleObjectsReturned, d)
                | Found _ => (Aborted (row_errors parse_due 2 rows), d)
                end) as Hres.
  { unfold res, handle. destruct (get _ _); [done| |done].
    rewrite read_rows_spec. simpl.
    destruct (row_errors parse_due 2 rows); [|done].
    by apply elem_of_nil in Hin. }
  split_and!.
  - rewrite Hres. by destruct (get _ _).
  - intros n. rewrite Hres. by destruct (get _ _).
  - intros user_pk Hu. by rewrite Hres, Hu.
  - exists e. split; [done|]. by eapply parse_row_error_row.
  - intros e'. rewrite elem_of_row_errors. split.
    + intros (j & row' & Hj & Hp). exists j, row'.
      split_and!; [done| |done|by eapply parse_row_error_row].
      apply (parse_row_rejects parse_due (2 + j)). by exists e'.
    + intros (j & row' & Hj & _ & Hp & _). by exists j, row'.
Qed.

(** A file whose second row has a [due_at] that is no date: one error, for
    row 3, and no record. *)
Lemma C7_invalid_row_aborts_without_writes_witness :
  let rows := [Sample.csv_row "Tax return" "" "2024-01-10 09:00" "1440, 60" "Work";
               Sample.csv_row "Dentist" "" "not-a-date" "30" ""] in
  handle Sample.parse_due "alice@example.com" rows Sample.only_users
  = (Aborted [InvalidDueAt 3 "not-a-date"], Sample.only_users).
Proof.
  intros rows.
  pose proof (C7_invalid_row_aborts_without_writes Sample.parse_due
                "alice@example.com" rows Sample.only_users 1
                (Sample.csv_row "Dentist" "" "not-a-date" "30" "")) as HC7.
  cbv zeta in HC7. destruct HC7 as (Hdb & _ & Hout & _).
  - reflexivity.
  - right. left. vm_compute. reflexivity.
  - specialize (Hout 1%nat). 
    destruct (handle Sample.parse_due "alice@example.com" rows Sample.only_users)
      as [out d']. simpl in Hdb, Hout. rewrite Hdb, Hout.
    + vm_compute. reflexivity.
    + vm_compute. reflexivity.
Defined.

(** ** The writing phase of the import *)

Section Writing.

Lemma next_pk_fresh {A} (t : gmap nat A) : t !! next_pk t = None.
Proof.
  destruct (t !! next_pk t) as [x|] eqn:Hx; [exfalso|done].
  assert (next_pk t ∈ (map_to_list t).*1) as Hin.
  { apply list_elem_of_fmap. exists (next_pk t, x). split; [done|].
    by apply elem_of_map_to_list. }
  apply max_list_elem_of_le in Hin. unfold next_pk in Hin. lia.
Qed.

Lemma keeps_ret (R : relation DB) `{!Reflexive R} {A} (a : A) :
  keeps R (ret a).
Proof. intros d. simpl. reflexivity. Qed.

Lemma keeps_bind (R : relation DB) `{!Transitive R} {A B}
    (m : M A) (k : A → M B) :
  keeps R m → (∀ a, keeps R (k a)) → keeps R (bind m k).
Proof.
  intros Hm Hk d. unfold bind. specialize (Hm d).
  destruct (m d) as [[e|a] d1]; simpl in *; [done|].
  etrans; [exact Hm|apply Hk].
Qed.

Lemma keeps_for_each (R : relation DB) `{!Reflexive R, !Transitive R} {A}
    (l : list A) (body : A → M unit) :
  (∀ x, keeps R (body x)) → keeps R (for_each l body).
Proof.
  intros Hbody. induction l as [|x l IH]; simpl.
  - by apply keeps_ret.
  - apply keeps_bind; [done..|]. by intros _.
Qed.

#[local] Instance grows_refl : Reflexive grows.
Proof. intros d. split_and!; [done|done|]. intros pk r Hr Hn. congruence. Qed.

#[local] Instance grows_trans : Transitive grows.
Proof.
  intros d1 d2 d3 (Hu1 & Hold1 & Hnew1) (Hu2 & Hold2 & Hnew2). split_and!.
  - congruence.
  - intros pk r Hr. by apply Hold2, Hold1.
  - intros pk r' Hr' Hn.
    destruct (reminders d2 !! pk) as [r2|] eqn:H2.
    + pose proof (Hold2 pk r2 H2). assert (r' = r2) as -> by congruence.
      by eapply Hnew1.
    + by eapply Hnew2.
Qed.

Lemma grows_same_reminders d d' :
  users d' = users d → reminders d' = reminders d → grows d d'.
Proof.
  intros Hu Hr. split_and!; [done|by rewrite Hr|].
  intros pk r'. rewrite Hr. congruence.
Qed.

Lemma keeps_create_event ev : keeps grows (create_event ev).
Proof. intros d. by apply grows_same_reminders. Qed.

Lemma keeps_get_or_create_label user_pk nm :
  keeps grows (get_or_create_label user_pk nm).
Proof.
  intros d. unfold get_or_create_label.
  destruct (get _ _); by apply grows_same_reminders.
Qed.

Lemma keeps_labels_add event_pk label_pk :
  keeps grows (labels_add event_pk label_pk).
Proof.
  intros d. unfold labels_add.
  destruct (bool_decide _); by apply grows_same_reminders.
Qed.

Lemma keeps_send_at_for due minutes : keeps grows (send_at_for due minutes).
Proof.
  intros d. unfold send_at_for.
  destruct (Py.timedelta_minutes _); [|reflexivity].
  destruct (Py.datetime_sub _ _); reflexivity.
Qed.

Lemma keeps_create_reminder event_pk t :
  keeps grows (create_reminder (new_reminder event_pk t)).
Proof.
  intros d. unfold create_reminder, create. simpl.
  pose proof (next_pk_fresh (reminders d)) as Hfresh.
  split_and!; [done| |]; simpl.
  - intros pk r Hr. rewrite lookup_insert_ne; [done|]. congruence.
  - intros pk r' Hr' Hn.
    destruct (decide (pk = next_pk (reminders d))) as [->|Hne].
    + rewrite lookup_insert_eq in Hr'. by inversion Hr'.
    + rewrite lookup_insert_ne in Hr' by done. congruence.
Qed.

Lemma keeps_create_one user_pk p : keeps grows (create_one user_pk p).
Proof.
  unfold create_one.
  apply keeps_bind; [apply _|apply keeps_create_event|]. intros event_pk.
  apply keeps_bind; [apply _| |].
  - apply keeps_for_each; [apply _..|]. intros nm.
    apply keeps_bind; [apply _|apply keeps_get_or_create_label|].
    intros label_pk. apply keeps_labels_add.
  - intros _. apply keeps_for_each; [apply _..|]. intros minutes.
    apply keeps_bind; [apply _|apply keeps_send_at_for|]. intros t.
    apply keeps_bind; [apply _|apply keeps_create_reminder|]. intros _.
    apply keeps_ret, _.
Qed.

Lemma keeps_create_all user_pk todo created :
  keeps grows (create_all user_pk todo created).
Proof.
  revert created. induction todo as [|p todo IH]; intros created; simpl.
  - apply keeps_ret, _.
  - apply keeps_bind; [apply _|apply keeps_create_one|]. by intros _.
Qed.

(** The import command only adds reminders, unsent and without [sent_at],
    whatever its outcome. *)
Lemma handle_grows parse_due user_email rows d :
  grows d (handle parse_due user_email rows d).2.
Proof.
  unfold handle. destruct (get _ _); [reflexivity| |reflexivity].
  destruct (read_rows _ _ _ _ _) as [[|e errors] todo]; [|reflexivity].
  pose proof (keeps_create_all pk todo 0 d) as Hk.
  by destruct (create_all pk todo 0 d) as [[e|n] d'].
Qed.

End Writing.

(** ** What a successful import wrote *)

Section Log.

Lemma bind_inr {A B} (m : M A) (k : A → M B) d b d' :
  bind m k d = (inr b, d') →
  ∃ a d1, m d = (inr a, d1) ∧ k a d1 = (inr b, d').
Proof.
  unfold bind. destruct (m d) as [[e|a] d1]; [done|]. intros Hk.
  by exists a, d1.
Qed.


#[local] Instance only_labels_refl : Reflexive only_labels.
Proof. by intros d. Qed.

#[local] Instance only_labels_trans : Transitive only_labels.
Proof.
  intros d1 d2 d3 (? & ? & ?) (? & ? & ?). split_and!; congruence.
Qed.







End Log.

Section Imported.




End Imported.



(** An offset beyond the range of [timedelta] passes the validation and
    makes the writing loop fail after the event and the reminders before it
    have been written. *)
Example import_overflowing_offset :
  let rows := [Sample.csv_row "Tax return" "" "2024-01-10 09:00"
                 "60,99999999999999" ""] in
  let res := handle Sample.parse_due "alice@example.com" rows Sample.only_users in
  res.1 = Crashed OverflowError
  ∧ size (events res.2) = 1%nat ∧ size (reminders res.2) = 1%nat.
Proof. vm_compute. done. Qed.

(** ** Decimal literals *)

Section Literals.

Lemma rev_app_rev_app (s1 s2 s3 : string) :
  String.rev_app (String.rev_app s1 s2) s3 = String.rev_app s2 (s1 +:+ s3).
Proof.
  revert s2 s3. induction s1 as [|a s1 IH]; intros s2 s3; [done|].
  simpl. by rewrite IH.
Qed.

Lemma string_app_empty_r (s : string) : s +:+ "" = s.
Proof.
  induction s as [|a s IH]; [done|].
  change (String a (s +:+ "") = String a s). by rewrite IH.
Qed.

Lemma string_rev_involutive (s : string) : String.rev (String.rev s) = s.
Proof.
  unfold String.rev. rewrite rev_app_rev_app. simpl.
  apply string_app_empty_r.
Qed.

Lemma all_chars_rev_app P (s1 s2 : string) :
  all_chars P s1 = true → all_chars P s2 = true →
  all_chars P (String.rev_app s1 s2) = true.
Proof.
  revert s2. induction s1 as [|a s1 IH]; intros s2 H1 H2; [done|].
  simpl in *. apply andb_true_iff in H1 as [Ha H1]. apply IH; [done|].
  simpl. by rewrite Ha, H2.
Qed.




Lemma split_id (sep : ascii) (s : string) :
  all_chars (λ c, negb (Ascii.eqb c sep)) s = true → Py.split sep s = [s].
Proof.
  induction s as [|a s IH]; [done|]. simpl.
  rewrite andb_true_iff, negb_true_iff. intros [-> Hs]. by rewrite IH.
Qed.

Lemma digit_of_pretty_N_char (x : N) :
  (x < 10)%N → Py.digit_of (pretty_N_char x) = Some (Z.of_N x).
Proof.
  intros Hx.
  assert (x ∈ [0; 1; 2; 3; 4; 5; 6; 7; 8; 9]%N) as Hin.
  { rewrite !elem_of_cons. lia. }
  rewrite !elem_of_cons, elem_of_nil in Hin.
  destruct Hin as [->|[->|[->|[->|[->|[->|[->|[->|[->|[->|[]]]]]]]]]]];
    reflexivity.
Qed.


Lemma pretty_N_go_digits (x : N) (s : string) :
  all_chars is_digit s = true → all_chars is_digit (pretty_N_go x s) = true.
Proof.
  revert s. induction (N.lt_wf_0 x) as [x _ IH]; intros s Hs.
  destruct (decide (x = 0)%N) as [->|Hx]; [by rewrite pretty_N_go_0|].
  rewrite pretty_N_go_step by lia. apply IH.
  - apply N.div_lt; lia.
  - simpl. rewrite Hs, andb_true_r. unfold is_digit.
    by rewrite digit_of_pretty_N_char by (apply N.mod_lt; lia).
Qed.





End Literals.


(** ** The invariant of the reminder rows *)

Lemma engine_step_rows d1 d2 :
  engine_step d1 d2 →
  (∀ pk r', reminders d2 !! pk = Some r' → row_step (reminders d1 !! pk) r')
  ∧ (∀ pk, is_Some (reminders d1 !! pk) → is_Some (reminders d2 !! pk)).
Proof.
  intros [parse_due user_email rows d|tr now w].
  - destruct (handle_grows parse_due user_email rows d) as (_ & Hold & Hnew).
    split.
    + intros pk r' Hr'. destruct (reminders d !! pk) as [r|] eqn:Hr.
      * left. rewrite (Hold pk r Hr) in Hr'. congruence.
      * right. left. split; [done|]. by eapply Hnew.
    + intros pk [r Hr]. rewrite (Hold pk r Hr). done.
  - destruct (send_due_reminders_run tr now w) as (done & rest & Hb & _ & -> & _).
    split.
    + intros pk r'. rewrite after_reminders.
      destruct (decide _) as [Hin|Hout]; [|by left].
      apply list_elem_of_fmap in Hin as (c & -> & [_ Hc]%list_elem_of_filter).
      assert (c ∈ due_reminders (db w) now) as Hbatch.
      { rewrite Hb. apply elem_of_app. by left. }
      apply due_reminders_row in Hbatch as [-> [Hunsent _]]. simpl.
      intros [= <-]. right. right. by exists (c_reminder c), now.
    + intros pk. apply after_is_Some.
Qed.

Lemma row_step_consistent before r' :
  (∀ r, before = Some r → consistent r) → row_step before r' → consistent r'.
Proof.
  intros Hb [Hsame|[(_ & Hs & Hat)|(r & now & _ & _ & ->)]].
  - by apply Hb.
  - unfold consistent. rewrite Hs, Hat. split; [done|]. by intros [? ?].
  - unfold consistent. simpl. split; [by eexists|done].
Qed.

(** C5.  Each operation of the engine (a run of the import command or an
    invocation of the task, whatever its outcome) leaves every reminder row
    in place and either as it was, or newly created unsent and without
    [sent_at], or turned from unsent to sent with [sent_at] set at the same
    time.  Hence, along any sequence of operations, if [is_sent] is true
    exactly when [sent_at] is set for every reminder at the start, it is so
    for every reminder at the end, and a reminder that is sent keeps its row
    unchanged for ever. *)
Theorem C5_sent_iff_stamped_and_never_reverts (d d' : DB) :
  rtc engine_step d d' →
  (∀ d1 d2, engine_step d1 d2 →
      (∀ pk r', reminders d2 !! pk = Some r' → row_step (reminders d1 !! pk) r')
      ∧ (∀ pk, is_Some (reminders d1 !! pk) → is_Some (reminders d2 !! pk)))
  ∧ ((∀ pk r, reminders d !! pk = Some r → consistent r) →
     ∀ pk r', reminders d' !! pk = Some r' → consistent r')
  ∧ (∀ pk r, reminders d !! pk = Some r → is_sent r = true →
             reminders d' !! pk = Some r).
Proof.
  intros Hsteps. split; [exact engine_step_rows|].
  induction Hsteps as [d|d d1 d' Hstep Hsteps [IHc IHs]].
  - split; [done|]. intros pk r Hr _. done.
  - destruct (engine_step_rows _ _ Hstep) as [Hrows Hstay]. split.
    + intros Hd. apply IHc. intros pk r1 Hr1.
      apply (row_step_consistent (reminders d !! pk)); [apply Hd|].
      by apply Hrows.
    + intros pk r Hr Hsent. apply IHs; [|done].
      destruct (Hstay pk) as [r1 Hr1]; [by rewrite Hr|].
      destruct (Hrows pk r1 Hr1) as [Hsame|[(Hnone & _)|(r0 & now & H0 & Hf & _)]];
        congruence.
Qed.

(** An import followed by an invocation of the task. *)
Lemma C5_sent_iff_stamped_and_never_reverts_witness :
  let rows := [Sample.csv_row "Tax return" "" "2024-01-10 09:00" "1440, 60" ""] in
  let d1 := (handle Sample.parse_due "alice@example.com" rows Sample.only_users).2 in
  let d2 := db (send_due_reminders Sample.always (Py.datetime 2024 1 10 8 30)
                  {| db := d1; outbox := [] |}).2 in
  (is_sent <$> reminders d2 !! 1%nat) = Some true
  ∧ (is_sent <$> reminders d2 !! 2%nat) = Some true
  ∧ ∀ pk r', reminders d2 !! pk = Some r' → consistent r'.
Proof.
  intros rows d1 d2.
  split; [vm_compute; reflexivity|]. split; [vm_compute; reflexivity|].
  apply (C5_sent_iff_stamped_and_never_reverts Sample.only_users d2).
  - eapply rtc_l;
      [apply (step_import Sample.parse_due "alice@example.com" rows)|].
    eapply rtc_l;
      [apply (step_dispatch Sample.always (Py.datetime 2024 1 10 8 30)
                {| db := d1; outbox := [] |})|].
    apply rtc_refl.
  - intros pk r Hr. vm_compute in Hr. discriminate Hr.
Defined.

(** * Further properties of the task *)

Section MoreDispatch.

Implicit Types (tr : Transport) (now : Z) (w : World) (c : Candidate).


Lemma sent_in_batch now w done rest c :
  due_reminders (db w) now = done ++ rest → c ∈ filter sendable done →
  c ∈ due_reminders (db w) now ∧ sendable c.
Proof.
  intros Hb [Hs Hc]%list_elem_of_filter. split; [|done].
  rewrite Hb. apply elem_of_app. by left.
Qed.

Lemma NoDup_sent now w done rest :
  due_reminders (db w) now = done ++ rest →
  NoDup (c_pk <$> filter sendable done).
Proof.
  intros Hb. pose proof (NoDup_due_reminders (db w) now) as Hnd.
  rewrite Hb, fmap_app in Hnd. apply NoDup_app in Hnd as (Hnd & _ & _).
  eapply sublist_NoDup; [exact Hnd|]. apply fmap_sublist, sublist_filter.
Qed.

End MoreDispatch.




(** X3.  Whatever its outcome, an invocation leaves the tables of users,
    events, labels and label links as they were, and neither adds nor
    removes a reminder: only rows of existing reminders may change. *)
Theorem X3_dispatch_writes_reminder_rows_only (tr : Transport) (now : Z)
    (w : World) :
  let d' := db (send_due_reminders tr now w).2 in
  users d' = users (db w) ∧ events d' = events (db w)
  ∧ labels d' = labels (db w) ∧ event_labels d' = event_labels (db w)
  ∧ dom (reminders d') = dom (reminders (db w)).
Proof.
  intros d'.
  destruct (send_due_reminders_run tr now w) as (done & rest & _ & _ & Hw & _).
  unfold d'. rewrite Hw. split_and!; [done..|].
  apply set_eq. intros pk. rewrite !elem_of_dom, after_reminders.
  destruct (decide _); [|done]. by rewrite fmap_is_Some.
Qed.



(** X5.  Whatever its outcome, an invocation delivers one mail for each
    reminder whose row it changes, and changes the row of each reminder it
    delivers a mail for: the new mails are those of a list of distinct
    candidates of the batch, and these are exactly the reminders whose rows
    differ from before. *)
Theorem X5_dispatch_one_mail_per_marked_reminder (tr : Transport) (now : Z)
    (w : World) :
  let batch := due_reminders (db w) now in
  let res := send_due_reminders tr now w in
  ∃ sent : list Candidate,
    NoDup (c_pk <$> sent)
    ∧ (∀ c, c ∈ sent → c ∈ batch ∧ sendable c)
    ∧ outbox res.2 = outbox w ++ (compose (db w) <$> sent)
    ∧ ∀ pk, pk ∈ c_pk <$> sent ↔
            reminders (db res.2) !! pk ≠ reminders (db w) !! pk.
Proof.
  intros batch res.
  destruct (send_due_reminders_run tr now w) as (done & rest & Hb & _ & Hw & _).
  fold res in Hw. fold batch in Hb. exists (filter sendable done).
  split_and!.
  - by eapply NoDup_sent.
  - intros c Hc. by eapply sent_in_batch.
  - by rewrite Hw.
  - intros pk. rewrite Hw, after_reminders. destruct (decide _) as [Hin|Hout].
    + split; [intros _|done].
      apply list_elem_of_fmap in Hin as (c & -> & Hc).
      destruct (sent_in_batch _ _ _ _ _ Hb Hc) as [Hbatch _].
      destruct (due_reminders_row _ _ _ Hbatch) as [-> [Hunsent _]]. simpl.
      intros [= Hm]. by apply mark_sent_changes in Hm.
    + split; [done|]. intros Hne. by destruct Hne.
Qed.

(** X6.  Every mail that an invocation delivers has exactly one recipient,
    the address of the user of a reminder of the batch, and this address is
    not empty; the sender is the configured default and the subject names
    the event of that reminder. *)
Theorem X6_dispatch_mail_recipient (tr : Transport) (now : Z) (w : World) :
  let batch := due_reminders (db w) now in
  let res := send_due_reminders tr now w in
  ∃ new : list Mail,
    outbox res.2 = outbox w ++ new
    ∧ ∀ m, m ∈ new →
        ∃ c, c ∈ batch
             ∧ recipient_list m = [email (c_user c)]
             ∧ email (c_user c) ≠ ""
             ∧ from_email m = DEFAULT_FROM_EMAIL
             ∧ subject m = (title (c_event c), due_at (c_event c)).
Proof.
  intros batch res.
  destruct (send_due_reminders_run tr now w) as (done & rest & Hb & _ & Hw & _).
  fold res in Hw. fold batch in Hb. exists (mails (db w) done).
  split; [by rewrite Hw|]. intros m (c & -> & Hc)%list_elem_of_fmap.
  destruct (sent_in_batch _ _ _ _ _ Hb Hc) as [Hbatch Hs].
  exists c. split_and!; [done|done| |done|done]. by apply sendable_email.
Qed.

(** X7.  Reminders without address can block the queue for good.  When 200
    unsent reminders whose users have no address are each strictly earlier
    than every reminder whose user has one, every invocation at a time when
    these 200 are due returns 0 and changes nothing, whatever the backend and
    however many reminders with an address are due. *)
Theorem X7_dispatch_blocked_by_addressless_head (w : World)
    (blockers : list Candidate) :
  NoDup blockers → (200 ≤ length blockers)%nat →
  (∀ b, b ∈ blockers →
        b ∈ joined (db w) ∧ is_sent (c_reminder b) = false ∧ ¬ sendable b) →
  (∀ b c, b ∈ blockers → c ∈ joined (db w) → sendable c →
          send_at (c_reminder b) < send_at (c_reminder c)) →
  ∀ (tr : Transport) (now : Z),
    (∀ b, b ∈ blockers → send_at (c_reminder b) ≤ now) →
    send_due_reminders tr now w = (Returned 0%nat, w).
Proof.
  intros Hnd Hlen Hblock Hearly tr now Hdue.
  apply run_without_addresses. intros c Hc Hs.
  assert (∀ b, b ∈ blockers → b ∈ due_reminders (db w) now) as Hin.
  { intros b Hb. destruct (Hblock b Hb) as (Hj & Hunsent & _).
    destruct (decide (b ∈ due_reminders (db w) now)) as [|Hout]; [done|].
    exfalso. destruct (left_out (db w) now b) as [_ Hle]; [|done|].
    - apply elem_of_pending. split; [|done]. split; [done|]. by apply Hdue.
    - specialize (Hle c Hc). unfold by_send_at in Hle.
      apply due_reminders_pending, elem_of_pending in Hc as [_ Hcj].
      specialize (Hearly b c Hb Hcj Hs). lia. }
  assert (c ∉ blockers) as Hcb.
  { intros Hb. by destruct (Hblock c Hb) as (_ & _ & Hno). }
  assert (NoDup (c :: blockers)) as Hnd' by by constructor.
  assert (c :: blockers ⊆+ due_reminders (db w) now) as Hsub.
  { apply NoDup_submseteq; [done|].
    intros x [->|Hx]%elem_of_cons; [done|by apply Hin]. }
  apply submseteq_length in Hsub. simpl in Hsub.
  pose proof (due_reminders_length (db w) now) as Hl. unfold BATCH in Hl. lia.
Qed.

(** 200 reminders of a user without address one minute before five
    reminders of a user with one: nothing is sent, at the time or a day
    later. *)
Lemma X7_dispatch_blocked_by_addressless_head_witness :
  let w := {| db := Sample.blocked 200 5 Sample.t0; outbox := [] |} in
  send_due_reminders Sample.always Sample.t0 w = (Returned 0%nat, w)
  ∧ send_due_reminders Sample.always (Sample.t0 + Py.US_PER_DAY) w
    = (Returned 0%nat, w)
  ∧ length (filter sendable (pending (db w) Sample.t0)) = 5%nat.
Proof.
  intros w.
  set (blockers := filter (λ c, ¬ sendable c) (joined (db w))).
  assert (∀ (tr : Transport) (now : Z),
            (∀ b, b ∈ blockers → send_at (c_reminder b) ≤ now) →
            send_due_reminders tr now w = (Returned 0%nat, w)) as Hrun.
  { apply (X7_dispatch_blocked_by_addressless_head w blockers).
    - apply (bool_decide_eq_true_1 (NoDup blockers)). vm_compute. reflexivity.
    - vm_compute. lia.
    - apply Forall_forall.
      apply (bool_decide_eq_true_1
               (Forall (λ b, b ∈ joined (db w) ∧ is_sent (c_reminder b) = false
                             ∧ ¬ sendable b) blockers)).
      vm_compute. reflexivity.
    - intros b c Hb Hc.
      assert (Forall (λ b, Forall (λ c, sendable c →
                send_at (c_reminder b) < send_at (c_reminder c)) (joined (db w)))
                blockers) as Hall.
      { apply (bool_decide_eq_true_1 (Forall _ blockers)).
        vm_compute. reflexivity. }
      rewrite Forall_forall in Hall. specialize (Hall b Hb).
      rewrite Forall_forall in Hall. exact (Hall c Hc). }
  assert (Forall (λ b, send_at (c_reminder b) ≤ Sample.t0) blockers) as Hdue.
  { apply (bool_decide_eq_true_1 (Forall _ blockers)). vm_compute. reflexivity. }
  rewrite Forall_forall in Hdue.
  split; [apply Hrun; exact Hdue|].
  split; [|vm_compute; reflexivity].
  apply Hrun. intros b Hb. specialize (Hdue b Hb).
  unfold Py.US_PER_DAY. lia.
Defined.

(** * Further properties of the import *)

Section Lookups.

Context {A : Type} (P : A → Prop) `{∀ a, Decision (P a)}.

Lemma get_DoesNotExist (t : gmap nat A) pk x :
  get P t = DoesNotExist → t !! pk = Some x → ¬ P x.
Proof.
  unfold get. intros Hget Hx HP.
  assert ((pk, x) ∈ filter (λ row : nat * A, P row.2) (map_to_list t)) as Hin.
  { apply list_elem_of_filter. split; [done|]. by apply elem_of_map_to_list. }
  destruct (filter _ _) as [|? [|]]; [|done..]. by apply elem_of_nil in Hin.
Qed.

Lemma get_Found (t : gmap nat A) pk :
  get P t = Found pk → ∃ x, t !! pk = Some x ∧ P x.
Proof.
  unfold get. intros Hget.
  destruct (filter _ _) as [|[pk' x] [|]] eqn:Hf; [done| |done].
  inversion Hget; subst; clear Hget. exists x.
  assert ((pk, x) ∈ filter (λ row : nat * A, P row.2) (map_to_list t)) as Hin
    by (rewrite Hf; by left).
  apply list_elem_of_filter in Hin as [HP Hin].
  by apply elem_of_map_to_list in Hin.
Qed.


End Lookups.

Section Additions.

#[local] Instance extends_refl : Reflexive extends.
Proof. intros d. by split_and!. Qed.

#[local] Instance extends_trans : Transitive extends.
Proof.
  intros d1 d2 d3 (Hu1 & He1 & Hl1 & Hk1 & Hr1) (Hu2 & He2 & Hl2 & Hk2 & Hr2).
  split_and!; [congruence|by etrans..].
Qed.

Lemma create_subseteq {B} (row : B) (t : gmap nat B) : t ⊆ (create row t).2.
Proof. unfold create. simpl. apply insert_subseteq, next_pk_fresh. Qed.

Lemma extends_create_event ev : keeps extends (create_event ev).
Proof.
  intros d. unfold create_event. simpl.
  split_and!; [done| |done..]. apply (create_subseteq ev).
Qed.

Lemma extends_create_reminder r : keeps extends (create_reminder r).
Proof.
  intros d. unfold create_reminder. simpl.
  split_and!; [done..|]. apply (create_subseteq r).
Qed.

Lemma extends_get_or_create_label user_pk nm :
  keeps extends (get_or_create_label user_pk nm).
Proof.
  intros d. unfold get_or_create_label.
  destruct (get _ _); [|reflexivity..]. simpl.
  split_and!; [done|done| |done..].
  apply (create_subseteq {| label_user := user_pk; name := nm; colour := "" |}).
Qed.

Lemma extends_labels_add event_pk label_pk :
  keeps extends (labels_add event_pk label_pk).
Proof.
  intros d. unfold labels_add.
  destruct (bool_decide _); [reflexivity|]. simpl.
  split_and!; [done..| |done].
  apply (create_subseteq {| el_event := event_pk; label := label_pk |}).
Qed.

Lemma extends_send_at_for due minutes : keeps extends (send_at_for due minutes).
Proof.
  intros d. unfold send_at_for.
  destruct (Py.timedelta_minutes _); [|reflexivity].
  destruct (Py.datetime_sub _ _); reflexivity.
Qed.

Lemma extends_labels_loop user_pk event_pk names :
  keeps extends
    (for_each names (λ nm,
       let* label_pk := get_or_create_label user_pk nm in
       labels_add event_pk label_pk)).
Proof.
  apply keeps_for_each; [apply _..|]. intros nm.
  apply keeps_bind; [apply _|apply extends_get_or_create_label|].
  intros label_pk. apply extends_labels_add.
Qed.

Lemma extends_offsets_loop event_pk due offsets :
  keeps extends
    (for_each offsets (λ minutes,
       let* t := send_at_for due minutes in
       let* _ := create_reminder (new_reminder event_pk t) in
       ret tt)).
Proof.
  apply keeps_for_each; [apply _..|]. intros minutes.
  apply keeps_bind; [apply _|apply extends_send_at_for|]. intros t.
  apply keeps_bind; [apply _|apply extends_create_reminder|]. intros _.
  apply keeps_ret, _.
Qed.

Lemma extends_create_one user_pk p : keeps extends (create_one user_pk p).
Proof.
  unfold create_one.
  apply keeps_bind; [apply _|apply extends_create_event|]. intros event_pk.
  apply keeps_bind; [apply _|apply extends_labels_loop|].
  intros _. apply keeps_for_each; [apply _..|]. intros minutes.
  apply keeps_bind; [apply _|apply extends_send_at_for|]. intros t.
  apply keeps_bind; [apply _|apply extends_create_reminder|]. intros _.
  apply keeps_ret, _.
Qed.

Lemma extends_create_all user_pk todo created :
  keeps extends (create_all user_pk todo created).
Proof.
  revert created. induction todo as [|p todo IH]; intros created; simpl.
  - apply keeps_ret, _.
  - apply keeps_bind; [apply _|apply extends_create_one|]. by intros _.
Qed.

#[local] Instance keeps_unique_refl : Reflexive keeps_unique.
Proof. by intros d. Qed.

#[local] Instance keeps_unique_trans : Transitive keeps_unique.
Proof. intros d1 d2 d3 [Ha1 Hb1] [Ha2 Hb2]. split; auto. Qed.

Lemma keeps_unique_same d d' :
  labels d' = labels d → event_labels d' = event_labels d → keeps_unique d d'.
Proof.
  intros Hl He. unfold keeps_unique, labels_unique, links_unique.
  by rewrite Hl, He.
Qed.

Lemma unique_get_or_create_label user_pk nm :
  keeps keeps_unique (get_or_create_label user_pk nm).
Proof.
  intros d. unfold get_or_create_label.
  destruct (get _ _) eqn:Hget; [|by apply keeps_unique_same..].
  unfold create. simpl. split; [|done]. unfold labels_unique. simpl.
  pose proof (next_pk_fresh (labels d)) as Hfresh.
  intros Huniq pk1 pk2 l1 l2 H1 H2 Hu Hn.
  destruct (decide (pk1 = next_pk (labels d))) as [->|Hne1],
           (decide (pk2 = next_pk (labels d))) as [->|Hne2]; [done| | |].
  - exfalso. rewrite lookup_insert_eq in H1. rewrite lookup_insert_ne in H2 by done.
    inversion H1; subst l1; clear H1. simpl in Hu, Hn.
    by apply (get_DoesNotExist _ _ pk2 l2 Hget H2).
  - exfalso. rewrite lookup_insert_eq in H2. rewrite lookup_insert_ne in H1 by done.
    inversion H2; subst l2; clear H2. simpl in Hu, Hn.
    by apply (get_DoesNotExist _ _ pk1 l1 Hget H1).
  - rewrite lookup_insert_ne in H1, H2 by done. by eapply Huniq.
Qed.

Lemma unique_labels_add event_pk label_pk :
  keeps keeps_unique (labels_add event_pk label_pk).
Proof.
  intros d. unfold labels_add.
  destruct (bool_decide _) eqn:Hin; [reflexivity|].
  apply bool_decide_eq_false_1 in Hin.
  unfold create. simpl. split; [done|]. unfold links_unique. simpl.
  pose proof (next_pk_fresh (event_labels d)) as Hfresh.
  assert (∀ pk l, event_labels d !! pk = Some l →
                  l ≠ {| el_event := event_pk; label := label_pk |}) as Hnew.
  { intros pk l Hl ->. apply Hin. apply list_elem_of_fmap.
    eexists (pk, _). split; [done|]. by apply elem_of_map_to_list. }
  intros Huniq pk1 pk2 l H1 H2.
  destruct (decide (pk1 = next_pk (event_labels d))) as [->|Hne1],
           (decide (pk2 = next_pk (event_labels d))) as [->|Hne2]; [done| | |].
  - exfalso. rewrite lookup_insert_eq in H1. rewrite lookup_insert_ne in H2 by done.
    inversion H1; subst l. by eapply Hnew.
  - exfalso. rewrite lookup_insert_eq in H2. rewrite lookup_insert_ne in H1 by done.
    inversion H2; subst l. by eapply Hnew.
  - rewrite lookup_insert_ne in H1, H2 by done. by eapply Huniq.
Qed.

Lemma unique_labels_loop user_pk event_pk names :
  keeps keeps_unique
    (for_each names (λ nm,
       let* label_pk := get_or_create_label user_pk nm in
       labels_add event_pk label_pk)).
Proof.
  apply keeps_for_each; [apply _..|]. intros nm.
  apply keeps_bind; [apply _|apply unique_get_or_create_label|].
  intros label_pk. apply unique_labels_add.
Qed.

Lemma unique_create_one user_pk p : keeps keeps_unique (create_one user_pk p).
Proof.
  unfold create_one.
  apply keeps_bind; [apply _| |].
  { intros d. by apply keeps_unique_same. }
  intros event_pk.
  apply keeps_bind; [apply _|apply unique_labels_loop|].
  intros _. apply keeps_for_each; [apply _..|]. intros minutes.
  apply keeps_bind; [apply _| |].
  { intros d. unfold send_at_for. destruct (Py.timedelta_minutes _); [|reflexivity].
    destruct (Py.datetime_sub _ _); reflexivity. }
  intros t. apply keeps_bind; [apply _| |].
  { intros d. by apply keeps_unique_same. }
  intros _. apply keeps_ret, _.
Qed.

Lemma unique_create_all user_pk todo created :
  keeps keeps_unique (create_all user_pk todo created).
Proof.
  revert created. induction todo as [|p todo IH]; intros created; simpl.
  - apply keeps_ret, _.
  - apply keeps_bind; [apply _|apply unique_create_one|]. by intros _.
Qed.

(** What holds of the writing loop holds of the command. *)
Lemma handle_keeps (R : relation DB) `{!Reflexive R} parse_due user_email rows d :
  (∀ user_pk todo, keeps R (create_all user_pk todo 0)) →
  R d (handle parse_due user_email rows d).2.
Proof.
  intros Hk. unfold handle. destruct (get _ _); [reflexivity| |reflexivity].
  destruct (read_rows _ _ _ _ _) as [[|e errors] todo]; [|reflexivity].
  specialize (Hk pk todo d).
  by destruct (create_all pk todo 0 d) as [[e|n] d'].
Qed.

Lemma handle_extends parse_due user_email rows d :
  extends d (handle parse_due user_email rows d).2.
Proof.
  apply (handle_keeps extends). intros user_pk todo.
  apply extends_create_all.
Qed.

Lemma handle_keeps_unique parse_due user_email rows d :
  keeps_unique d (handle parse_due user_email rows d).2.
Proof.
  apply (handle_keeps keeps_unique). intros user_pk todo.
  apply unique_create_all.
Qed.

End Additions.

(** X8.  Whatever its outcome, a run of the import command changes no user
    and changes or removes no row: every event, label, label link and
    reminder that was there is there afterwards, unchanged. *)
Theorem X8_import_only_adds (parse_due : string → option Z)
    (user_email : string) (rows : list CsvRow) (d : DB) :
  let d' := (handle parse_due user_email rows d).2 in
  users d' = users d
  ∧ events d ⊆ events d' ∧ labels d ⊆ labels d'
  ∧ event_labels d ⊆ event_labels d' ∧ reminders d ⊆ reminders d'.
Proof. apply handle_extends. Qed.

(** X9.  Whatever its outcome, a run of the import command keeps the two
    uniqueness constraints of the label tables: if no two labels had the
    same user and name before, none have after, and if no two links joined
    the same event and label before, none do after. *)
Theorem X9_import_keeps_label_constraints (parse_due : string → option Z)
    (user_email : string) (rows : list CsvRow) (d : DB) :
  let d' := (handle parse_due user_email rows d).2 in
  (labels_unique d → labels_unique d') ∧ (links_unique d → links_unique d').
Proof. apply handle_keeps_unique. Qed.

Section ForeignKeys.









End ForeignKeys.



Section Labels.

Lemma extends_labelled user_pk d d' e p :
  extends d d' → labelled user_pk d e p → labelled user_pk d' e p.
Proof.
  intros (_ & He & Hl & Hk & _) [Hev Hnames]. split.
  - by eapply lookup_weaken.
  - intros nm Hnm. destruct (Hnames nm Hnm) as (lpk & l & k & Hlab & ? & ? & Hlink).
    exists lpk, l, k. split_and!; [|done..|]; by eapply lookup_weaken.
Qed.

Lemma get_or_create_label_inr user_pk nm d lpk d' :
  get_or_create_label user_pk nm d = (inr lpk, d') →
  ∃ l, labels d' !! lpk = Some l ∧ label_user l = user_pk ∧ name l = nm.
Proof.
  unfold get_or_create_label. destruct (get _ _) eqn:Hget.
  - unfold create. intros [= <- <-]. simpl. eexists.
    rewrite lookup_insert_eq. done.
  - intros [= <- <-]. apply get_Found in Hget as (l & Hl & Hu & Hn).
    by exists l.
  - done.
Qed.

Lemma labels_add_inr event_pk label_pk d d' :
  labels_add event_pk label_pk d = (inr tt, d') →
  ∃ k, event_labels d' !! k
       = Some {| el_event := event_pk; label := label_pk |}.
Proof.
  unfold labels_add. destruct (bool_decide _) eqn:Hin.
  - intros [= <-]. apply bool_decide_eq_true_1 in Hin.
    apply list_elem_of_fmap in Hin as ([k l] & -> & Hin).
    exists k. by apply elem_of_map_to_list.
  - unfold create. intros [= <-]. simpl. eexists.
    by rewrite lookup_insert_eq.
Qed.

Lemma labels_loop_links user_pk event_pk names d d' :
  for_each names (λ nm,
    let* label_pk := get_or_create_label user_pk nm in
    labels_add event_pk label_pk) d = (inr tt, d') →
  ∀ nm, nm ∈ names →
    ∃ lpk l k, labels d' !! lpk = Some l
               ∧ label_user l = user_pk ∧ name l = nm
               ∧ event_labels d' !! k
                 = Some {| el_event := event_pk; label := lpk |}.
Proof.
  revert d. induction names as [|nm0 names IH]; intros d Hrun nm Hnm.
  - by apply elem_of_nil in Hnm.
  - cbn [for_each] in Hrun.
    apply bind_inr in Hrun as ([] & d2 & Hbody & Hrest).
    apply elem_of_cons in Hnm as [->|Hnm]; [|by eapply IH].
    apply bind_inr in Hbody as (lpk & d1 & Hget & Hadd).
    destruct (get_or_create_label_inr _ _ _ _ _ Hget) as (l & Hl & Hu & Hn).
    destruct (labels_add_inr _ _ _ _ Hadd) as (k & Hk).
    pose proof (extends_labels_add event_pk lpk d1) as (_ & _ & Hl12 & _).
    rewrite Hadd in Hl12. simpl in Hl12.
    pose proof (extends_labels_loop user_pk event_pk names d2)
      as (_ & _ & Hl2 & Hk2 & _).
    rewrite Hrest in Hl2, Hk2. simpl in Hl2, Hk2.
    exists lpk, l, k. split_and!; [|done..|].
    + eapply lookup_weaken; [|exact Hl2]. by eapply lookup_weaken.
    + by eapply lookup_weaken.
Qed.

Lemma create_one_labelled user_pk p d d' :
  create_one user_pk p d = (inr tt, d') →
  ∃ e, events d !! e = None ∧ labelled user_pk d' e p.
Proof.
  unfold create_one. intros Hrun.
  apply bind_inr in Hrun as (e & d1 & Hev & Hrun).
  apply bind_inr in Hrun as ([] & d2 & Hlabels & Hoffsets).
  pose proof (next_pk_fresh (events d)) as Hfresh.
  assert (e = next_pk (events d)
          ∧ events d1 = <[e := event_of user_pk p]> (events d))
    as (He1 & Hev1).
  { unfold create_event, create in Hev. by inversion Hev. }
  rewrite <-He1 in Hfresh. exists e. split; [done|].
  assert (extends d1 d2) as H12.
  { pose proof (extends_labels_loop user_pk e (p_label_names p) d1) as H.
    by rewrite Hlabels in H. }
  assert (extends d2 d') as H2.
  { pose proof (extends_offsets_loop e (p_due p) (p_offsets p) d2) as Hk.
    by rewrite Hoffsets in Hk. }
  apply (extends_labelled user_pk d2 d'); [done|]. split.
  - destruct H12 as (_ & He & _). eapply lookup_weaken; [|exact He].
    rewrite Hev1. by rewrite lookup_insert_eq.
  - by eapply labels_loop_links.
Qed.

Lemma create_all_labelled user_pk todo created d n d' :
  create_all user_pk todo created d = (inr n, d') →
  ∀ p, p ∈ todo → ∃ e, events d !! e = None ∧ labelled user_pk d' e p.
Proof.
  revert created d. induction todo as [|p0 todo IH]; intros created d Hrun p Hp.
  - by apply elem_of_nil in Hp.
  - cbn [create_all] in Hrun.
    apply bind_inr in Hrun as ([] & d1 & Hone & Hrest).
    apply elem_of_cons in Hp as [->|Hp].
    + destruct (create_one_labelled _ _ _ _ Hone) as (e & He & Hl).
      exists e. split; [done|].
      apply (extends_labelled user_pk d1 d'); [|done].
      pose proof (extends_create_all user_pk todo (S created) d1) as H.
      by rewrite Hrest in H.
    + destruct (IH _ _ Hrest p Hp) as (e & He & Hl). exists e. split; [|done].
      pose proof (extends_create_one user_pk p0 d) as (_ & Hev & _).
      rewrite Hone in Hev. simpl in Hev.
      destruct (events d !! e) as [ev|] eqn:Hd; [|done].
      by rewrite (lookup_weaken _ _ _ _ Hd Hev) in He.
Qed.

End Labels.

(** X11.  After a successful import every row of the file has an event of
    its own, under a key that was free, with the title, description and due
    moment parsed from the row and status open; and for every label name of
    the row there is a label of the importing user with that name that is
    linked to the event. *)
Theorem X11_import_assigns_labels (parse_due : string → option Z)
    (user_email : string) (rows : list CsvRow) (d d' : DB) (n : nat) :
  handle parse_due user_email rows d = (Imported n, d') →
  ∃ user_pk,
    get (λ u, email u = user_email) (users d) = Found user_pk
    ∧ ∀ i row, rows !! i = Some row →
        ∃ p e, parse_row parse_due (2 + i) row = inr p
               ∧ events d !! e = None
               ∧ events d' !! e
                 = Some {| user := user_pk; title := p_title p;
                           description := p_description p;
                           due_at := p_due p; status := STATUS_OPEN |}
               ∧ ∀ nm, nm ∈ p_label_names p →
                   ∃ lpk l k,
                     labels d' !! lpk = Some l
                     ∧ label_user l = user_pk ∧ name l = nm
                     ∧ event_labels d' !! k
                       = Some {| el_event := e; label := lpk |}.
Proof.
  unfold handle. destruct (get _ _) as [|user_pk|]; [done| |done].
  rewrite read_rows_spec. simpl.
  destruct (row_errors parse_due 2 rows) eqn:Herr; [|done].
  destruct (create_all _ _ _ _) as [[ex|m] d1] eqn:Hrun; [done|].
  intros [= <- <-]. exists user_pk. split; [done|]. intros i row Hi.
  destruct (rows_parsed_all parse_due 2 rows Herr) as [_ Hall].
  destruct (Hall i row Hi) as (p & Hp & Hpr).
  destruct (create_all_labelled _ _ _ _ _ _ Hrun p) as (e & He & Hev & Hl).
  { by eapply list_elem_of_lookup_2. }
  by exists p, e.
Qed.

(** A row with two label names, one of them twice. *)
Lemma X11_import_assigns_labels_witness :
  let rows := [Sample.csv_row "Tax return" "" "2024-01-10 09:00" "60"
                 "Work; Home;Work"] in
  let res := handle Sample.parse_due "alice@example.com" rows Sample.only_users in
  res.1 = Imported 1
  ∧ (name <$> (map_to_list (labels res.2)).*2) ≡ₚ ["Work"; "Home"]
  ∧ size (event_labels res.2) = 2%nat
  ∧ ∃ user_pk, get (λ u, email u = "alice@example.com") (users Sample.only_users)
               = Found user_pk.
Proof.
  intros rows res.
  assert (res = (Imported 1, res.2)) as Hres by (vm_compute; reflexivity).
  destruct (X11_import_assigns_labels Sample.parse_due "alice@example.com"
              rows Sample.only_users res.2 1 Hres) as (user_pk & Hu & _).
  split; [vm_compute; reflexivity|]. split; [|split].
  - vm_compute. apply Permutation_swap.
  - vm_compute. reflexivity.
  - by exists user_pk.
Defined.

Section Success.










Lemma row_results_cons parse_due idx row rows :
  row_results parse_due idx (row :: rows)
  = parse_row parse_due idx row :: row_results parse_due (S idx) rows.
Proof.
  unfold row_results. rewrite imap_cons, Nat.add_0_r. f_equal.
  apply imap_ext. intros i x _. simpl. f_equal. lia.
Qed.

Lemma row_errors_bounds parse_due idx rows e :
  e ∈ row_errors parse_due idx rows →
  (idx ≤ error_row e < idx + length rows)%nat.
Proof.
  intros (j & row & Hj & Hp)%elem_of_row_errors.
  apply parse_row_error_row in Hp. apply lookup_lt_Some in Hj. lia.
Qed.

Lemma row_errors_sorted parse_due idx rows :
  StronglySorted lt (error_row <$> row_errors parse_due idx rows).
Proof.
  revert idx. induction rows as [|row rows IH]; intros idx; [constructor|].
  unfold row_errors. rewrite row_results_cons. simpl.
  destruct (parse_row parse_due idx row) as [e|p] eqn:Hp; simpl; [|apply IH].
  constructor; [apply IH|]. apply Forall_forall.
  intros k (e' & -> & He')%list_elem_of_fmap.
  apply row_errors_bounds in He'. apply parse_row_error_row in Hp. lia.
Qed.

Lemma row_results_partition parse_due idx rows :
  (length (row_errors parse_due idx rows)
   + length (rows_parsed parse_due idx rows) = length rows)%nat.
Proof.
  revert idx. induction rows as [|row rows IH]; intros idx; [done|].
  unfold row_errors, rows_parsed. rewrite row_results_cons.
  specialize (IH (S idx)). unfold row_errors, rows_parsed in IH.
  set (rest := row_results parse_due (S idx) rows) in *.
  destruct (parse_row parse_due idx row); simpl;
    change (list_omap _ _ error_of rest) with (omap error_of rest);
    change (list_omap _ _ parsed_of rest) with (omap parsed_of rest); lia.
Qed.

End Success.



(** X13.  When the command aborts on invalid rows it has written nothing,
    and the errors it lists are in ascending order of row number, one per
    row at most, each with a row number of the file (the first row after the
    header being row 2). *)
Theorem X13_import_errors_in_row_order (parse_due : string → option Z)
    (user_email : string) (rows : list CsvRow) (d d' : DB)
    (errors : list RowError) :
  handle parse_due user_email rows d = (Aborted errors, d') →
  d' = d ∧ errors ≠ []
  ∧ StronglySorted lt (error_row <$> errors)
  ∧ (∀ e, e ∈ errors → (2 ≤ error_row e < 2 + length rows)%nat)
  ∧ (length errors ≤ length rows)%nat.
Proof.
  unfold handle. destruct (get _ _); [done| |done].
  rewrite read_rows_spec. simpl.
  destruct (row_errors parse_due 2 rows) as [|e0 l] eqn:Herr.
  { by destruct (create_all _ _ _ _) as [[?|?] ?]. }
  intros [= <- <-]. rewrite <-Herr. split_and!.
  - done.
  - by rewrite Herr.
  - apply row_errors_sorted.
  - intros e. apply row_errors_bounds.
  - pose proof (row_results_partition parse_due 2 rows). lia.
Qed.

(** Three rows, the second and the third invalid. *)
Lemma X13_import_errors_in_row_order_witness :
  let rows := [Sample.csv_row "Tax return" "" "2024-01-10 09:00" "60" "";
               Sample.csv_row "" "" "2024-01-10 09:00" "" "";
               Sample.csv_row "Dentist" "" "2024-02-01 14:30" "1,x" ""] in
  handle Sample.parse_due "alice@example.com" rows Sample.only_users
  = (Aborted [MissingTitle 3; InvalidOffsets 4 "1,x"], Sample.only_users)
  ∧ StronglySorted lt [3; 4]%nat.
Proof.
  intros rows.
  assert (handle Sample.parse_due "alice@example.com" rows Sample.only_users
          = (Aborted [MissingTitle 3; InvalidOffsets 4 "1,x"], Sample.only_users))
    as Hrun by (vm_compute; reflexivity).
  split; [exact Hrun|].
  by destruct (X13_import_errors_in_row_order _ _ _ _ _ _ Hrun)
    as (_ & _ & Hsorted & _).
Defined.

(** * Further properties of the text fields *)

Section Pieces.

Lemma split_app_sep (sep : ascii) (p rest : string) :
  all_chars (λ c, negb (Ascii.eqb c sep)) p = true →
  Py.split sep (p +:+ String sep rest) = p :: Py.split sep rest.
Proof.
  induction p as [|a p IH]; intros Hp.
  - change ("" +:+ String sep rest) with (String sep rest). simpl.
    by rewrite Ascii.eqb_refl.
  - change (String a p +:+ String sep rest)
      with (String a (p +:+ String sep rest)).
    simpl in Hp. apply andb_true_iff in Hp as [Ha Hp].
    apply negb_true_iff in Ha. simpl. rewrite Ha, IH by done. done.
Qed.

Lemma split_join (sep : ascii) (names : list string) :
  names ≠ [] →
  Forall (λ nm, all_chars (λ c, negb (Ascii.eqb c sep)) nm = true) names →
  Py.split sep (str_join (String sep "") names) = names.
Proof.
  induction names as [|p [|q names] IH]; intros Hne Hall; [done| |].
  - simpl. apply split_id. by apply Forall_inv in Hall.
  - apply Forall_cons in Hall as [Hp Hall].
    change (str_join (String sep "") (p :: q :: names))
      with (p +:+ String sep (str_join (String sep "") (q :: names))).
    rewrite split_app_sep by done. f_equal. by apply IH.
Qed.

Lemma pieces_join (sep : ascii) (names : list string) :
  names ≠ [] → Forall (clean sep) names →
  pieces sep (str_join (String sep "") names) = names.
Proof.
  intros Hne Hall. unfold pieces. rewrite split_join; [|done|].
  2: { eapply Forall_impl; [exact Hall|]. by intros nm (_ & _ & ?). }
  clear Hne. induction Hall as [|nm names (Hnm & Hstrip & _) _ IH]; [done|].
  rewrite filter_cons_True.
  2: { rewrite Hstrip. by destruct nm. }
  rewrite fmap_cons, Hstrip. by f_equal.
Qed.

Lemma str_join_truthy (sep : string) (names : list string) p :
  p ≠ "" → Py.truthy (str_join sep (p :: names)) = true.
Proof. intros Hp. destruct p as [|a p]; [done|]. by destruct names. Qed.



Lemma lstrip_all_space (s : string) :
  Py.lstrip s = "" ↔ all_chars Py.is_space s = true.
Proof.
  induction s as [|a s IH]; [done|]. simpl.
  destruct (Py.is_space a); [done|]. split; done.
Qed.

Lemma all_chars_rev P (s : string) :
  all_chars P (String.rev s) = true ↔ all_chars P s = true.
Proof.
  split; intros Hs.
  - rewrite <-(string_rev_involutive s). by apply all_chars_rev_app.
  - by apply all_chars_rev_app.
Qed.

Lemma lstrip_space_back (s : string) :
  all_chars Py.is_space (Py.lstrip s) = true → all_chars Py.is_space s = true.
Proof.
  induction s as [|a s IH]; [done|]. simpl.
  destruct (Py.is_space a) eqn:Ha; [done|]. simpl. by rewrite Ha.
Qed.

(** [strip] gives the empty string exactly on blank strings. *)
Lemma strip_empty (s : string) :
  Py.strip s = "" ↔ all_chars Py.is_space s = true.
Proof.
  unfold Py.strip, Py.rstrip. split.
  - intros Hs. apply lstrip_space_back.
    apply (all_chars_rev _ (Py.lstrip s)). apply lstrip_all_space.
    rewrite <-(string_rev_involutive (Py.lstrip _)). by rewrite Hs.
  - intros Hs. apply lstrip_all_space in Hs. by rewrite Hs.
Qed.

End Pieces.

(** X14.  A semicolon-separated list of label names is read back as written:
    for names that are not empty, have no blank at either end and contain no
    semicolon, the labels column made by joining them with [;] yields
    exactly these names, in order. *)
Theorem X14_labels_column_round_trip (names : list string) :
  Forall (clean ";") names →
  parse_labels (str_join ";" names) = names.
Proof.
  intros Hall. destruct names as [|p names]; [done|].
  unfold parse_labels. rewrite str_join_truthy.
  - by apply pieces_join.
  - by apply Forall_inv in Hall as (? & _).
Qed.

(** Two names. *)
Lemma X14_labels_column_round_trip_witness :
  parse_labels "Work;Home" = ["Work"; "Home"].
Proof.
  apply (X14_labels_column_round_trip ["Work"; "Home"]).
  repeat constructor; vm_compute; congruence.
Defined.


(** X16.  A row is rejected for its title exactly when the title column is
    missing from the row or holds only blanks, whatever the other columns
    hold. *)
Theorem X16_blank_title_is_missing (parse_due : string → option Z)
    (idx : nat) (row : CsvRow) :
  parse_row parse_due idx row = inl (MissingTitle idx)
  ↔ all_chars Py.is_space (default "" (row !! "title")) = true.
Proof.
  rewrite <-strip_empty. fold (field row "title"). unfold parse_row.
  destruct (field row "title") as [|a t]; simpl; [done|].
  split; [|done].
  destruct (parse_due _); [|done]. by destruct (parse_offsets _).
Qed.

(** * Properties of the models *)

Section Models.

Lemma pretty_nat_digits (n : nat) : all_chars is_digit (pretty n) = true.
Proof.
  change (pretty n) with (pretty (N.of_nat n)). unfold pretty, pretty_N.
  destruct (decide _); [done|]. by apply pretty_N_go_digits.
Qed.

Lemma digits_slash_inj (s s' f f' : string) :
  all_chars is_digit s = true → all_chars is_digit s' = true →
  s +:+ String "/" f = s' +:+ String "/" f' → s = s' ∧ f = f'.
Proof.
  revert s'. induction s as [|a s IH]; intros [|a' s'] Hs Hs'.
  - by intros [= ->].
  - intros [= <- _]. simpl in Hs'. done.
  - intros [= -> _]. simpl in Hs. done.
  - intros [= -> Heq]. simpl in Hs, Hs'.
    apply andb_true_iff in Hs as [_ Hs], Hs' as [_ Hs'].
    destruct (IH s' Hs Hs' Heq) as [-> ->]. done.
Qed.

#[local] Instance by_name_total : Total by_name.
Proof. intros a b. unfold by_name. apply String.leb_total. Qed.


End Models.

(** X17.  The upload paths of attachments never collide: two attachments
    get the same path only if they belong to the same event and have the
    same file name.  In particular no path of one event lies in the
    directory of another. *)
Theorem X17_upload_paths_do_not_collide (e e' : nat) (f f' : string) :
  attachment_upload_to e f = attachment_upload_to e' f' ↔ e = e' ∧ f = f'.
Proof.
  split; [|by intros [-> ->]]. unfold attachment_upload_to.
  intros Heq%(inj (String.app "attachments/")).
  apply digits_slash_inj in Heq as [Hp ->]; [|apply pretty_nat_digits..].
  by apply (inj pretty) in Hp as ->.
Qed.

(** X18.  [Attachment.save] fills in without overwriting.  A mime type that
    was given is kept, and so is a size above zero; with a file, the saved
    attachment always has a mime type (the guessed one, or
    [application/octet-stream] when there is no guess) and a size; without
    a file nothing is filled in; the event and the file are never touched;
    and saving what was saved changes nothing more. *)
Theorem X18_attachment_save_fills_in (guess_type : string → option string)
    (a : Attachment.t) :
  let a' := Attachment.save guess_type a in
  Attachment.save guess_type a' = a'
  ∧ Attachment.event a' = Attachment.event a
  ∧ Attachment.file a' = Attachment.file a
  ∧ (Attachment.mime_type a ≠ "" →
     Attachment.mime_type a' = Attachment.mime_type a)
  ∧ (∀ n, Attachment.size a = Some (S n) → Attachment.size a' = Some (S n))
  ∧ (Attachment.file_name (Attachment.file a) ≠ "" →
     Attachment.mime_type a' ≠ ""
     ∧ (Attachment.mime_type a = "" →
        Attachment.mime_type a'
        = match guess_type (Attachment.file_name (Attachment.file a)) with
          | Some (String c m) => String c m
          | _ => "application/octet-stream"
          end)
     ∧ (Attachment.size_missing (Attachment.size a) = true →
        Attachment.size a'
        = Some (Attachment.file_size (Attachment.file a))))
  ∧ (Attachment.file_name (Attachment.file a) = "" → a' = a).
Proof.
  destruct a as [ev [fn fs] m sz]. unfold Attachment.save. simpl.
  destruct fn as [|c fn], m as [|c' m], sz as [[|n]|], fs as [|fs];
    destruct (guess_type _) as [[|c'' g]|]; simpl;
    split_and!; try done; try (intros; simplify_eq/=; done).
Qed.


(** * Failures of the import *)

Section Failures.

Lemma get_no_match {A} (P : A → Prop) `{∀ a, Decision (P a)} (t : gmap nat A) :
  (∀ pk x, t !! pk = Some x → ¬ P x) → get P t = DoesNotExist.
Proof.
  intros Hno. unfold get.
  destruct (filter _ _) as [|[pk x] l] eqn:Hf; [done|exfalso].
  assert ((pk, x) ∈ filter (λ row : nat * A, P row.2) (map_to_list t)) as Hin
    by (rewrite Hf; by left).
  apply list_elem_of_filter in Hin as [HP Hin].
  apply elem_of_map_to_list in Hin. by eapply Hno.
Qed.




End Failures.

(** X20.  The command ends with "no user found" exactly when no user has the
    address given, and then nothing is written, whatever the file holds. *)
Theorem X20_import_unknown_user (parse_due : string → option Z)
    (user_email : string) (rows : list CsvRow) (d : DB) :
  (handle parse_due user_email rows d).1 = NoUserFound
  ↔ (∀ pk u, users d !! pk = Some u → email u ≠ user_email).
Proof.
  split.
  - unfold handle. destruct (get _ _) eqn:Hget; [| |done].
    + intros _ pk u Hu. by apply (get_DoesNotExist _ _ pk u Hget).
    + rewrite read_rows_spec. simpl.
      destruct (row_errors parse_due 2 rows); [|done].
      by destruct (create_all _ _ _ _) as [[?|?] ?].
  - intros Hno. unfold handle. by rewrite get_no_match.
Qed.



(** X22.  When no unsent reminder is due, an invocation returns 0, delivers
    no mail and writes nothing, whatever the mail backend would do. *)
Theorem X22_dispatch_nothing_due (tr : Transport) (now : Z) (w : World) :
  (∀ pk r, reminders (db w) !! pk = Some r →
           is_sent r = true ∨ now < send_at r) →
  send_due_reminders tr now w = (Returned 0%nat, w).
Proof.
  intros Hnone. apply run_without_addresses. intros c Hc. exfalso.
  apply due_reminders_row in Hc as [Hrow [Hunsent Hat]].
  destruct (Hnone _ _ Hrow) as [Hsent|Hlater]; [congruence|lia].
Qed.

(** Three reminders, an hour before they fall due. *)
Lemma X22_dispatch_nothing_due_witness :
  let w := {| db := Sample.backlog 3 Sample.t0; outbox := [] |} in
  send_due_reminders Sample.never (Sample.t0 - 60 * Py.US_PER_MINUTE) w
  = (Returned 0%nat, w).
Proof.
  intros w. apply X22_dispatch_nothing_due. intros pk r Hr. right.
  assert (map_Forall (λ _ r, Sample.t0 - 60 * Py.US_PER_MINUTE < send_at r)
            (reminders (db w))) as Hall.
  { apply (bool_decide_eq_true_1
             (map_Forall (λ _ r, Sample.t0 - 60 * Py.US_PER_MINUTE < send_at r)
                (reminders (db w)))).
    vm_compute. reflexivity. }
  exact (Hall pk r Hr).
Defined.
